(** * UltraNest, docs/example-sine-line.ipynb: the sine-line model

    The notebook defines three Python functions over NumPy float64 values
    ([sine_model], [prior_transform], [log_likelihood]) and hands them to
    [ReactiveNestedSampler].  This development embeds

    - the arithmetic of the notebook, written once over an interface [Arith]
      (the Python functions are duck-typed) and instantiated at the real
      numbers (the mathematical model of the markdown cells) and at a model
      of IEEE-754 binary64 with NaN, infinities and overflow;
    - the NumPy arrays the functions read and write, as a store of arrays
      addressed by reference, so that [cube.copy()] and [params[i] = v] keep
      their aliasing behaviour;
    - the sampler that the notebook only calls, as far as the specification
      describes it. *)

From Stdlib Require Import Reals Lra Lia ZArith.
From stdpp Require Import base option list strings gmap.

Open Scope R_scope.

(** ** Numbers *)

(** What the notebook's arithmetic needs from a number type.  [lit r] is the
    number denoted by a literal whose mathematical value is [r]. *)
Class Arith (T : Type) := {
  lit : R → T;
  np_add : T → T → T;
  np_sub : T → T → T;
  np_mul : T → T → T;
  np_div : T → T → T;
  np_sin : T → T;
  np_pow10 : T → T;     (* 10 ** x *)
  np_pi : T;
}.

Declare Scope np_scope.
Delimit Scope np_scope with np.
Infix "+" := np_add : np_scope.
Infix "-" := np_sub : np_scope.
Infix "*" := np_mul : np_scope.
Infix "/" := np_div : np_scope.

(** Exact arithmetic: the model as the markdown cell writes it. *)
#[export] Instance R_arith : Arith R := {|
  lit r := r;
  np_add := Rplus;
  np_sub := Rminus;
  np_mul := Rmult;
  np_div := Rdiv;
  np_sin := sin;
  np_pow10 x := Rpower 10 x;
  np_pi := PI;
|}.

(** *** binary64 *)

(** A float64 is a real number, an infinity or NaN.  The sign of zero is
    not tracked. *)
Inductive float64 : Type :=
  | Fin (r : R)
  | PInf
  | NInf
  | NaN.

(** The largest finite binary64, (2^53 - 1) * 2^971. *)
Definition MAX : R := IZR (2 ^ 53 - 1) * powerRZ 2 971.

(** Numbers with a 53-bit significand and an exponent not below the
    subnormal one. *)
Definition representable (r : R) : Prop :=
  ∃ m e : Z, (Z.abs m ≤ 2 ^ 53)%Z ∧ (-1074 ≤ e)%Z ∧ r = IZR m * powerRZ 2 e.

(** Integers every binary64 rounding leaves alone. *)
Definition small (n : Z) : Prop := (Z.abs n ≤ 2 ^ 53)%Z.

(** A finite float64 within the range of the format. *)
Definition finite (a : float64) : Prop :=
  ∃ r, a = Fin r ∧ - MAX <= r <= MAX.

(** A finite float64 between two reals. *)
Definition between (lo hi : R) (a : float64) : Prop :=
  ∃ r, a = Fin r ∧ lo <= r <= hi.

(** A finite float64 that is at most another. *)
Definition fle (a b : float64) : Prop :=
  ∃ x y, a = Fin x ∧ b = Fin y ∧ x <= y.

(** Rounding to the format with an unbounded exponent range: monotone, and
    the identity on the format.  Round-to-nearest-even is such a function,
    and these two laws are all that is used of it.  Overflow is decided on
    the rounded value, as IEEE-754 does. *)
Class Rounding := {
  rnd : R → R;
  rnd_mono : ∀ x y, x <= y → rnd x <= rnd y;
  rnd_repr : ∀ r, representable r → rnd r = r;
}.

Section Binary64.
Context (RND : Rounding).

(** The float64 that an operation returns when its exact result is [r]. *)
Definition pack (r : R) : float64 :=
  let r' := rnd r in
  if Rlt_dec MAX r' then PInf
  else if Rlt_dec r' (- MAX) then NInf
  else Fin r'.

Definition fadd (a b : float64) : float64 :=
  match a, b with
  | NaN, _ | _, NaN => NaN
  | Fin x, Fin y => pack (x + y)
  | PInf, NInf | NInf, PInf => NaN
  | PInf, _ | _, PInf => PInf
  | NInf, _ | _, NInf => NInf
  end.

Definition fsub (a b : float64) : float64 :=
  match a, b with
  | NaN, _ | _, NaN => NaN
  | Fin x, Fin y => pack (x - y)
  | PInf, PInf | NInf, NInf => NaN
  | PInf, _ | _, NInf => PInf
  | NInf, _ | _, PInf => NInf
  end.

(** An infinity times [y]: NaN at zero, otherwise the sign rule. *)
Definition inf_times (positive : bool) (y : R) : float64 :=
  match total_order_T 0 y with
  | inleft (left _) => if positive then PInf else NInf
  | inleft (right _) => NaN
  | inright _ => if positive then NInf else PInf
  end.

Definition fmul (a b : float64) : float64 :=
  match a, b with
  | NaN, _ | _, NaN => NaN
  | Fin x, Fin y => pack (x * y)
  | PInf, Fin y | Fin y, PInf => inf_times true y
  | NInf, Fin y | Fin y, NInf => inf_times false y
  | PInf, PInf | NInf, NInf => PInf
  | PInf, NInf | NInf, PInf => NInf
  end.

(** [x / 0] is NaN for [x = 0] and an infinity otherwise (of the sign of
    [x], the zero being taken positive). *)
Definition fdiv (a b : float64) : float64 :=
  match a, b with
  | NaN, _ | _, NaN => NaN
  | Fin x, Fin y =>
      if Req_dec_T y 0 then
        match total_order_T 0 x with
        | inleft (left _) => PInf
        | inleft (right _) => NaN
        | inright _ => NInf
        end
      else pack (x / y)
  | Fin _, (PInf | NInf) => Fin 0
  | PInf, Fin y => if Rlt_dec y 0 then NInf else PInf
  | NInf, Fin y => if Rlt_dec y 0 then PInf else NInf
  | (PInf | NInf), (PInf | NInf) => NaN
  end.

(** [sin] and [10 ** x] come from the C library; they are taken to return
    the rounded exact value. *)
Definition fsin (a : float64) : float64 :=
  match a with
  | Fin x => pack (sin x)
  | _ => NaN
  end.

Definition fpow10 (a : float64) : float64 :=
  match a with
  | Fin x => pack (Rpower 10 x)
  | PInf => PInf
  | NInf => Fin 0
  | NaN => NaN
  end.

Definition float64_arith : Arith float64 := {|
  lit := pack;
  np_add := fadd;
  np_sub := fsub;
  np_mul := fmul;
  np_div := fdiv;
  np_sin := fsin;
  np_pow10 := fpow10;
  np_pi := pack PI;
|}.

End Binary64.

(** Infinite precision is a rounding; it is the one the examples run on. *)
Definition exact : Rounding :=
  {| rnd r := r; rnd_mono x y Hxy := Hxy; rnd_repr r _ := eq_refl |}.

(** A rounding that loses digits: [round_down] takes a number to the
    multiple of 2^-1074 just below it, 2^-1074 being the spacing of the
    subnormal numbers, of which every number of the format is a multiple;
    [coarse] does so from 1 on and leaves the numbers below 1 alone. *)
Definition round_down (x : R) : R :=
  IZR (Int_part (x * powerRZ 2 1074)) * powerRZ 2 (-1074).

Definition coarse (x : R) : R :=
  if Rle_dec 1 x then round_down x else x.

(** ** The model (first code cell) *)

Section Model.
Context {T : Type} `{Arith T}.
Local Open Scope np_scope.

(** def sine_model(t, B, A, P, t0):
        return A * sin((t / P + t0) * 2 * pi) + B *)
Definition sine_model (t B A P t0 : T) : T :=
  A * np_sin ((t / P + t0) * lit 2 * np_pi) + B.

End Model.

(** ** NumPy arrays and the store *)

(** The exceptions of the notebook's functions.  [DanglingReference] is for
    an address that is not in the store, which Python rules out. *)
Inductive exn := IndexError | ValueError | DanglingReference.

(** What a call comes back with: a value or an exception. *)
Inductive result (A : Type) : Type :=
  | Ok (a : A)
  | Raise (e : exn).
Arguments Ok {A} a.
Arguments Raise {A} e.

(** An array is referred to by an address; the store maps addresses to the
    contents of the arrays that are alive. *)
Abbreviation ref := positive (only parsing).
Abbreviation store T := (gmap positive (list T)) (only parsing).

(** A Python computation: it reads and writes the store and returns a value
    or raises; what it wrote before raising stays written. *)
Definition py (T A : Type) : Type := store T → result A * store T.

#[export] Instance py_ret {T} : MRet (py T) := λ A a h, (Ok a, h).
#[export] Instance py_bind {T} : MBind (py T) := λ A B f m h,
  match m h with
  | (Ok a, h') => f a h'
  | (Raise e, h') => (Raise e, h')
  end.

(** A computation that does not touch the store. *)
Definition lift {T A} (r : result A) : py T A := λ h, (r, h).

Section Arrays.
Context {T : Type}.

(** [a.copy()]: a new array with the contents of [a]. *)
Definition ndarray_copy (a : ref) : py T ref := λ h,
  match h !! a with
  | Some v => let a' := fresh (dom h) in (Ok a', <[a' := v]> h)
  | None => (Raise DanglingReference, h)
  end.

(** [a[i]] *)
Definition getitem (a : ref) (i : nat) : py T T := λ h,
  match h !! a with
  | Some v =>
      match v !! i with
      | Some x => (Ok x, h)
      | None => (Raise IndexError, h)
      end
  | None => (Raise DanglingReference, h)
  end.

(** [a[i] = x] *)
Definition setitem (a : ref) (i : nat) (x : T) : py T () := λ h,
  match h !! a with
  | Some v =>
      if decide (i < length v)%nat then (Ok (), <[a := <[i := x]> v]> h)
      else (Raise IndexError, h)
  | None => (Raise DanglingReference, h)
  end.

(** [w, x, y, z = a] *)
Definition unpack4 (a : ref) : py T (T * T * T * T) := λ h,
  match h !! a with
  | Some [w; x; y; z] => (Ok (w, x, y, z), h)
  | Some _ => (Raise ValueError, h)
  | None => (Raise DanglingReference, h)
  end.

(** An elementwise binary operation on two one-dimensional arrays, with
    NumPy's broadcasting of an array of length one. *)
Definition broadcast2 (f : T → T → T) (a b : list T) : result (list T) :=
  if decide (length a = length b) then Ok (zip_with f a b)
  else match a, b with
       | [x], _ => Ok (map (f x) b)
       | _, [y] => Ok (map (λ x, f x y) a)
       | _, _ => Raise ValueError
       end.

(** [m] leaves every array alone that is alive when it starts and is not
    one of those in [P]. *)
Definition modifies_only {A} (P : ref → Prop) (m : py T A) : Prop :=
  ∀ h a v, ¬ P a → h !! a = Some v → (m h).2 !! a = Some v.

End Arrays.

(** ** The notebook *)

(** parameters = ['B', 'A', 'P', '$t_0$'] *)
Definition parameters : list string := ["B"; "A"; "P"; "$t_0$"]%string.

(** wrapped_params=[False, False, False, True] *)
Definition wrapped_params : list bool := [false; false; false; true].

(** n_data = 20 *)
Definition n_data : nat := 20.

Section Notebook.
Context {T : Type} `{Arith T}.
(** The observation times and the measurements, drawn by the notebook
    from NumPy's generator. *)
Variables t y : list T.
Local Open Scope np_scope.

(** yerr = 1.0 *)
Definition yerr : T := lit 1.

(** def prior_transform(cube):
        params = cube.copy()
        params[0] = cube[0] * 20 - 10
        params[1] = 10**(cube[1] * 4 - 2)
        params[2] = 10**(cube[2] * 2)
        params[3] = cube[3]
        return params *)
Definition prior_transform (cube : ref) : py T ref :=
  params ← ndarray_copy cube;
  c0 ← getitem cube 0;
  setitem params 0 (c0 * lit 20 - lit 10);;
  c1 ← getitem cube 1;
  setitem params 1 (np_pow10 (c1 * lit 4 - lit 2));;
  c2 ← getitem cube 2;
  setitem params 2 (np_pow10 (c2 * lit 2));;
  c3 ← getitem cube 3;
  setitem params 3 c3;;
  mret params.

(** [x ** 2] on an array is NumPy's square. *)
Definition np_square (x : T) : T := x * x.

(** [a.sum()].  NumPy adds the entries in blocks rather than from left to
    right; the order changes how the sum is rounded, not the bounds proved
    of it below. *)
Definition np_sum (a : list T) : T := fold_left np_add a (lit 0).

(** def log_likelihood(params):
        B, A, P, t0 = params
        y_model = sine_model(t, A=A, B=B, P=P, t0=t0)
        loglike = -0.5 * (((y_model - y) / yerr)**2).sum()
        return loglike *)
Definition log_likelihood (params : ref) : py T T :=
  '(B, A, P, t0) ← unpack4 params;
  let y_model := map (λ ti, sine_model ti B A P t0) t in
  d ← lift (broadcast2 np_sub y_model y);
  let loglike := lit (- 0.5) * np_sum (map (λ x, np_square (x / yerr)) d) in
  mret loglike.

End Notebook.

(** The model at time [t] as a function of the parameter vector, unpacked
    as [log_likelihood] unpacks it. *)
Definition y_model_at (t : R) (params : list R) : option R :=
  match params with
  | [B; A; P; t0] => Some (sine_model t B A P t0)
  | _ => None
  end.

(** The parameter vector with its [i]-th entry moved by one. *)
Definition shift1 (i : nat) (params : list R) : list R :=
  alter (λ x, x + 1) i params.

(** The period, the third parameter, is not zero. *)
Definition nonzero_period (params : list R) : Prop :=
  ∀ P, params !! 2%nat = Some P → P ≠ 0.

(** The model does not tell [x] from [x + 1] in its [i]-th parameter. *)
Definition one_periodic (i : nat) : Prop :=
  ∀ t params, nonzero_period params → nonzero_period (shift1 i params) →
    y_model_at t (shift1 i params) = y_model_at t params.

(** ** The sampler

    [ReactiveNestedSampler] and its [run] are called by the notebook and
    defined elsewhere in the package.  What follows is the sampler of the
    specification: its data model (section 3), the state machine of the
    Sampler/Integrator (section 4.4), the configuration errors (section 7)
    and the Results Summarizer (section 4.5). *)

(** The sum of a list of reals. *)
Definition Rsum (l : list R) : R := foldr Rplus 0 l.

Module Sampler.

(** Modelled from the spec: the LivePoint of section 3.  Its
    log-likelihood is a real number: infeasible draws ([-inf]) are retried
    and never enter the live set. *)
Record LivePoint := {
  unit_coords : list R;
  physical_coords : list R;
  log_likelihood : R;
}.

(** Modelled from the spec: the DeadPoint of section 3, a removed live
    point with the log prior volume at removal time and its stratum, the
    live-set size at removal. *)
Record DeadPoint := {
  point : LivePoint;
  log_volume : R;
  stratum : nat;
}.

(** Modelled from the spec: the Run State of section 3.  [live_points]
    maps insertion indices to live points. *)
Record RunState := {
  dead_points : list DeadPoint;
  live_points : gmap nat LivePoint;
  log_volume_estimate : R;
  log_evidence : float64;
  log_evidence_variance : float64;
  n_likelihood_calls : nat;
  iteration : nat;
}.

(** Modelled from the spec: the run configuration of section 6.  [dlogZ]
    is the tolerance that the spec writes dKL/dlogZ and that the notebook
    passes as dKL. *)
Record Config := {
  min_num_live_points : nat;
  dlogZ : float64;
  min_ess : nat;
  max_iters : option nat;
  max_calls : option nat;
}.


(** Modelled from the spec: the outcome of checking a configuration at
    startup (section 7). *)
Inductive config_result := Accepted | ConfigurationError.

(** Modelled from the spec: the ConfigurationError of section 7, raised
    when min_num_live_points < D+1 or when the tolerance is not finite
    and not +infinity. *)
Definition validate (D : nat) (c : Config) : config_result :=
  if decide (min_num_live_points c < D + 1)%nat then ConfigurationError
  else match dlogZ c with
       | Fin _ | PInf => Accepted
       | NInf | NaN => ConfigurationError
       end.

(** Modelled from the spec: the evidence-tolerance criterion of the
    stopping rule, "the estimated remaining evidence falls below the
    configured tolerance". *)
Definition below_tolerance (tol : float64) (remaining : R) : Prop :=
  match tol with
  | Fin d => remaining < d
  | PInf => True
  | NInf | NaN => False
  end.

(** Modelled from the spec: the states of section 4.4. *)
Inductive phase :=
  INITIALIZING | SAMPLING | REACTIVE_EXPAND | CONVERGED | STOPPED | FAILED.

(** Modelled from the spec: the Sampler/Integrator of section 4.4, that is
    where it is in the state machine, the Run State it owns and the next
    insertion index of the live-point set (section 3). *)
Record Machine := {
  state : phase;
  run : RunState;
  next_index : nat;
}.

(** Modelled from the spec: the members of the live-point set. *)
Definition live_list (r : RunState) : list LivePoint :=
  (map_to_list (live_points r)).*2.

(** Modelled from the spec: the current threshold L*, the likelihood of
    the most recently removed point; there is none before the first
    removal. *)
Definition threshold (r : RunState) : option R :=
  (λ d, log_likelihood (point d)) <$> last (dead_points r).

(** Modelled from the spec: the remaining evidence of section 4.4,
    log(mean_live_likelihood) + log_volume_remaining. *)
Definition remaining_evidence (r : RunState) : R :=
  ln (Rsum ((λ p, exp (log_likelihood p)) <$> live_list r)
      / INR (length (live_list r)))
  + log_volume_estimate r.

(** Modelled from the spec: the current worst live point of section 4.4,
    one of lowest log-likelihood. *)
Definition is_worst (live : gmap nat LivePoint) (i : nat) (w : LivePoint) : Prop :=
  live !! i = Some w ∧
  ∀ j q, live !! j = Some q → log_likelihood w <= log_likelihood q.

(** Modelled from the spec: the setting of a run.  The number of
    parameters, the prior transform and the likelihood (opaque pure
    functions, section 9), the run configuration, and the effective
    sample size, a measure of the posterior weights that the spec leaves
    to the implementer. *)
Record Setting := {
  D : nat;
  transform : list R → list R;
  loglike : list R → R;
  config : Config;
  ESS : RunState → R;
}.

Section Machine.
Variable E : Setting.

(** Modelled from the spec: the invariant of a LivePoint. *)
Definition valid_point (p : LivePoint) : Prop :=
  length (unit_coords p) = D E ∧
  Forall (λ u, 0 <= u <= 1) (unit_coords p) ∧
  physical_coords p = transform E (unit_coords p) ∧
  log_likelihood p = loglike E (physical_coords p).

(** Modelled from the spec: the contract of the Region/Proposal Engine
    (section 4.3): the likelihood of a candidate it returns exceeds the
    threshold. *)
Definition exceeds (L : option R) (p : LivePoint) : Prop :=
  ∀ l, L = Some l → l < log_likelihood p.

(** Modelled from the spec: the stopping rule of section 4.4. *)
Definition stopping_rule (r : RunState) : Prop :=
  below_tolerance (dlogZ (config E)) (remaining_evidence r) ∧
  INR (min_ess (config E)) < ESS E r ∧
  (min_num_live_points (config E) ≤ size (live_points r))%nat.

(** Modelled from the spec: the Run State a run begins with. *)
Definition initial : Machine := {|
  state := INITIALIZING;
  run := {| dead_points := [];
            live_points := ∅;
            log_volume_estimate := 0;
            log_evidence := NInf;
            log_evidence_variance := Fin 0;
            n_likelihood_calls := 0;
            iteration := 0 |};
  next_index := 0;
|}.

(** Modelled from the spec: insertion into the live-point set, after [k]
    likelihood calls found the point [p]. *)
Definition add_live (p : LivePoint) (k : nat) (m : Machine) : Machine := {|
  state := state m;
  run := {| dead_points := dead_points (run m);
            live_points := <[next_index m := p]> (live_points (run m));
            log_volume_estimate := log_volume_estimate (run m);
            log_evidence := log_evidence (run m);
            log_evidence_variance := log_evidence_variance (run m);
            n_likelihood_calls := n_likelihood_calls (run m) + k;
            iteration := iteration (run m) |};
  next_index := S (next_index m);
|}.

(** Modelled from the spec: the removal of the live point [w] at index [i]
    (section 4.4).  It is recorded as a dead point; the log volume goes
    down by 1/N_live, N_live the live-set size of this step; [ev] and [var]
    are the updated evidence and its variance, for which the spec names
    two rules and fixes neither. *)
Definition kill (i : nat) (w : LivePoint) (ev var : float64)
    (m : Machine) : Machine :=
  let N := size (live_points (run m)) in
  let lv := log_volume_estimate (run m) - 1 / INR N in {|
  state := state m;
  run := {| dead_points :=
              dead_points (run m)
              ++ [{| point := w; log_volume := lv; stratum := N |}];
            live_points := delete i (live_points (run m));
            log_volume_estimate := lv;
            log_evidence := ev;
            log_evidence_variance := var;
            n_likelihood_calls := n_likelihood_calls (run m);
            iteration := S (iteration (run m)) |};
  next_index := next_index m;
|}.

(** Modelled from the spec: a change of state that leaves the Run State as
    it is. *)
Definition goto (ph : phase) (m : Machine) : Machine :=
  {| state := ph; run := run m; next_index := next_index m |}.

(** Modelled from the spec: the transitions of section 4.4.  A step of
    SAMPLING removes the worst point and inserts its replacement at
    once: no partial mutation is visible (section 7).  When to expand is a
    heuristic the spec leaves open, and cancellation may come at any time,
    so neither is guarded. *)
Inductive step : Machine → Machine → Prop :=
  | step_draw m p k :
      state m = INITIALIZING →
      (size (live_points (run m)) < min_num_live_points (config E))%nat →
      valid_point p → (1 ≤ k)%nat →
      step m (add_live p k m)
  | step_start m :
      state m = INITIALIZING →
      size (live_points (run m)) = min_num_live_points (config E) →
      step m (goto SAMPLING m)
  | step_sample m i w ev var c k :
      state m = SAMPLING →
      is_worst (live_points (run m)) i w →
      valid_point c → log_likelihood w < log_likelihood c → (1 ≤ k)%nat →
      step m (add_live c k (kill i w ev var m))
  | step_expand m :
      state m = SAMPLING →
      step m (goto REACTIVE_EXPAND m)
  | step_grow m p k :
      state m = REACTIVE_EXPAND →
      valid_point p → exceeds (threshold (run m)) p → (1 ≤ k)%nat →
      step m (add_live p k m)
  | step_resume m :
      state m = REACTIVE_EXPAND →
      step m (goto SAMPLING m)
  | step_converge m :
      state m = SAMPLING →
      stopping_rule (run m) →
      step m (goto CONVERGED m)
  | step_stop m :
      state m = INITIALIZING ∨ state m = SAMPLING ∨ state m = REACTIVE_EXPAND →
      step m (goto STOPPED m)
  | step_fail m :
      state m = INITIALIZING ∨ state m = SAMPLING →
      step m (goto FAILED m).

(** Modelled from the spec: the states of a run; it begins only with a
    configuration that is accepted (section 7). *)
Definition reachable (m : Machine) : Prop :=
  validate (D E) (config E) = Accepted ∧ rtc step initial m.

(** Modelled from the spec: what holds of the machine between any two
    steps; the floor, the threshold and the volume clauses are invariants
    the spec states (sections 3, 4.4 and 8). *)
Record invariant (m : Machine) : Prop := {
  inv_index : ∀ i p,
    live_points (run m) !! i = Some p → (i < next_index m)%nat;
  inv_valid : ∀ i p,
    live_points (run m) !! i = Some p → valid_point p;
  inv_init : state m = INITIALIZING → dead_points (run m) = [];
  inv_floor :
    state m = SAMPLING ∨ state m = REACTIVE_EXPAND ∨ state m = CONVERGED →
    (min_num_live_points (config E) ≤ size (live_points (run m)))%nat;
  inv_threshold : ∀ L i p,
    threshold (run m) = Some L → live_points (run m) !! i = Some p →
    L <= log_likelihood p;
  inv_volume : ∀ d,
    d ∈ dead_points (run m) → log_volume_estimate (run m) <= log_volume d;
  inv_sorted : ∀ i j d d',
    (i < j)%nat →
    dead_points (run m) !! i = Some d → dead_points (run m) !! j = Some d' →
    log_volume d' < log_volume d;
}.


End Machine.










(** *** A small run, for the examples

    One parameter, the identity as prior transform, the coordinate itself
    as log-likelihood; two live points, one removal, convergence. *)
Definition example_config : Config := {|
  min_num_live_points := 2;
  dlogZ := PInf;
  min_ess := 0;
  max_iters := None;
  max_calls := None;
|}.

Definition example_transform (u : list R) : list R := u.
Definition example_loglike (x : list R) : R := default 0 (head x).
Definition example_ESS (r : RunState) : R := 1.

Definition example_setting : Setting := {|
  D := 1;
  transform := example_transform;
  loglike := example_loglike;
  config := example_config;
  ESS := example_ESS;
|}.

Definition example_point (u : R) : LivePoint :=
  {| unit_coords := [u]; physical_coords := [u]; log_likelihood := u |}.

Definition example_m1 : Machine := add_live (example_point 0) 1 initial.
Definition example_m2 : Machine := add_live (example_point (1 / 2)) 1 example_m1.
Definition example_m3 : Machine := goto SAMPLING example_m2.
Definition example_m4 : Machine :=
  add_live (example_point 1) 1
    (kill 0 (example_point 0) (Fin 0) (Fin 0) example_m3).




End Sampler.

(** A point of the unit hypercube [0,1]^D, D the number of parameters. *)
Definition unit_cube (v : list float64) : Prop :=
  length v = length parameters ∧ Forall (between 0 1) v.

(** What is known of the data: [n_data] times drawn from [0, 5] and as many
    measurements of magnitude at most [Y]. *)
Definition observations (Y : Z) (t y : list float64) : Prop :=
  length t = n_data ∧ length y = n_data ∧
  Forall (between 0 5) t ∧ Forall (between (- IZR Y) (IZR Y)) y.

(** Data and a store for the examples: twenty times from 0 to 4.75 and
    twenty measurements from -1 to 0.9, and one point of the unit
    hypercube. *)
Definition example_t : list float64 :=
  (λ k, Fin (INR k / 4)) <$> seq 0 n_data.
Definition example_y : list float64 :=
  (λ k, Fin (INR k / 10 - 1)) <$> seq 0 n_data.
Definition example_cube : list float64 :=
  [Fin (1 / 2); Fin (1 / 4); Fin 1; Fin 0].
Definition example_store : gmap positive (list float64) :=
  {[ 1%positive := example_cube ]}.

(** More stores and data for the examples: arrays of reals of two, four
    and five entries, two observations, a second point of the unit
    hypercube, and parameters with a period of zero. *)
Definition example_store_exact : gmap positive (list R) :=
  {[ 1%positive := [1 / 2; 1 / 4; 1; 0];
     2%positive := [1 / 2; 1 / 4; 1; 0 + 1];
     3%positive := [1 / 2; 1 / 4];
     4%positive := [1 / 2; 1 / 4; 1; 0; 7] ]}.
Definition example_t_exact : list R := [0; 1].
Definition example_y_exact : list R := [1; 2].
Definition example_params_exact : gmap positive (list R) :=
  {[ 1%positive := [1; 2; 3; 0] ]}.
Definition example_store_pair : gmap positive (list float64) :=
  {[ 1%positive := example_cube;
     2%positive := [Fin 1; Fin 1; Fin 1; Fin 1] ]}.
Definition example_params_zero : gmap positive (list float64) :=
  {[ 1%positive := [Fin 0; Fin 1; Fin 0; Fin 0] ]}.

(** Tactics for the examples: a float between two bounds, and a list of
    them. *)
Ltac solve_between := eexists; split; [reflexivity | simpl; lra].
Ltac solve_all_between :=
  repeat first
    [ apply List.Forall_nil
    | apply List.Forall_cons; [solve_between |] ].

(** * Properties *)

(** ** binary64: what rounding preserves *)

Lemma small_representable (n : Z) :
  (Z.abs n ≤ 2 ^ 53)%Z → representable (IZR n).
Proof.
  intros Hn. exists n, 0%Z. repeat split; [done | lia |].
  simpl. lra.
Qed.

Lemma MAX_representable : representable MAX.
Proof.
  exists (2 ^ 53 - 1)%Z, 971%Z. repeat split; lia.
Qed.

Lemma opp_representable r : representable r → representable (- r).
Proof.
  intros (m & e & Hm & He & ->). exists (- m)%Z, e.
  repeat split; [lia | done |]. rewrite opp_IZR. lra.
Qed.

Lemma MAX_large : IZR (2 ^ 53) <= MAX.
Proof.
  unfold MAX.
  assert (Hp : 2 <= powerRZ 2 971).
  { change (powerRZ 2 971) with (2 ^ Pos.to_nat 971).
    replace 2 with (2 ^ 1) at 1 by lra.
    apply Rle_pow; [lra | lia]. }
  assert (H53 : 1 <= IZR (2 ^ 53 - 1)) by (apply IZR_le; lia).
  replace (IZR (2 ^ 53)) with (IZR (2 ^ 53 - 1) + 1)
    by (rewrite <- plus_IZR; f_equal; lia).
  nra.
Qed.

Section Binary64_facts.
Context (RND : Rounding).

Lemma rnd_small (n : Z) : (Z.abs n ≤ 2 ^ 53)%Z → rnd (IZR n) = IZR n.
Proof. intros Hn. by apply rnd_repr, small_representable. Qed.

(** No overflow below MAX: the rounded value stays in range. *)
Lemma pack_in_range r :
  - MAX <= r <= MAX → pack RND r = Fin (rnd r) ∧ - MAX <= rnd r <= MAX.
Proof.
  intros [Hlo Hhi].
  assert (H1 : rnd r <= MAX).
  { rewrite <- (rnd_repr MAX MAX_representable). by apply rnd_mono. }
  assert (H2 : - MAX <= rnd r).
  { rewrite <- (rnd_repr (- MAX) (opp_representable _ MAX_representable)).
    by apply rnd_mono. }
  unfold pack. simpl.
  destruct (Rlt_dec MAX (rnd r)); [lra |].
  destruct (Rlt_dec (rnd r) (- MAX)); [lra | done].
Qed.

(** Rounding keeps a value between two small integers. *)
Lemma pack_between (lo hi : Z) r :
  (Z.abs lo ≤ 2 ^ 53)%Z → (Z.abs hi ≤ 2 ^ 53)%Z →
  IZR lo <= r <= IZR hi →
  pack RND r = Fin (rnd r) ∧ IZR lo <= rnd r <= IZR hi.
Proof.
  intros Hlo Hhi [H1 H2].
  assert (Hb : IZR lo <= rnd r <= IZR hi).
  { split.
    - rewrite <- (rnd_small lo Hlo). by apply rnd_mono.
    - rewrite <- (rnd_small hi Hhi). by apply rnd_mono. }
  split; [| done].
  assert (HM := MAX_large).
  assert (IZR hi <= IZR (2 ^ 53)) by (apply IZR_le; lia).
  assert (IZR (- 2 ^ 53) <= IZR lo) by (apply IZR_le; lia).
  rewrite opp_IZR in *.
  unfold pack. simpl.
  destruct (Rlt_dec MAX (rnd r)); [lra |].
  destruct (Rlt_dec (rnd r) (- MAX)); [lra | done].
Qed.

Lemma pack_small (n : Z) : (Z.abs n ≤ 2 ^ 53)%Z → pack RND (IZR n) = Fin (IZR n).
Proof.
  intros Hn.
  assert (Hr : IZR n <= IZR n <= IZR n) by lra.
  destruct (pack_between n n (IZR n) Hn Hn Hr) as [-> _].
  by rewrite rnd_small.
Qed.

End Binary64_facts.

(** ** Arrays and the store *)

Section Arrays_facts.
Context {T : Type}.
Implicit Types (h : gmap positive (list T)) (a : positive) (v : list T).

Lemma bind_ok {A B} (m : py T A) (f : A → py T B) h x h' :
  m h = (Ok x, h') → (m ≫= f) h = f x h'.
Proof. unfold mbind, py_bind. by intros ->. Qed.

Lemma bind_raise {A B} (m : py T A) (f : A → py T B) h e h' :
  m h = (Raise e, h') → (m ≫= f) h = (Raise e, h').
Proof. unfold mbind, py_bind. by intros ->. Qed.

Lemma bind_result {A B} (m : py T A) (f : A → py T B) h y :
  ((m ≫= f) h).1 = Ok y → ∃ x h', m h = (Ok x, h') ∧ (f x h').1 = Ok y.
Proof.
  unfold mbind, py_bind. destruct (m h) as [[x | e] h']; [| done].
  intros Hy. by exists x, h'.
Qed.

Lemma fresh_not_alive h a v : h !! a = Some v → fresh (dom h) ≠ a.
Proof.
  intros Ha Heq. apply (is_fresh (dom h)). rewrite Heq.
  apply elem_of_dom. by exists v.
Qed.

Lemma ndarray_copy_ok h a v :
  h !! a = Some v →
  ndarray_copy a h = (Ok (fresh (dom h)), <[fresh (dom h) := v]> h).
Proof. unfold ndarray_copy. by intros ->. Qed.

Lemma getitem_ok h a v i x :
  h !! a = Some v → v !! i = Some x → getitem a i h = (Ok x, h).
Proof. unfold getitem. by intros -> ->. Qed.

Lemma setitem_ok h a v i x :
  h !! a = Some v → (i < length v)%nat →
  setitem a i x h = (Ok (), <[a := <[i := x]> v]> h).
Proof. unfold setitem. intros -> Hi. by rewrite decide_True. Qed.

Lemma modifies_only_ret {A} P (x : A) : modifies_only P (mret x : py T A).
Proof. by intros h a v _ Ha. Qed.

Lemma modifies_only_lift {A} P (r : result A) :
  modifies_only P (lift r : py T A).
Proof. by intros h a v _ Ha. Qed.

Lemma modifies_only_bind {A B} P (m : py T A) (f : A → py T B) :
  modifies_only P m → (∀ x, modifies_only P (f x)) →
  modifies_only P (m ≫= f).
Proof.
  intros Hm Hf h a v Hna Ha. unfold mbind, py_bind.
  specialize (Hm h a v Hna Ha).
  destruct (m h) as [[x | e] h']; simpl in *; [| done].
  by apply Hf.
Qed.

Lemma modifies_only_getitem P a i : modifies_only P (getitem a i : py T T).
Proof.
  intros h b v _ Hb. unfold getitem.
  destruct (h !! a) as [w |]; [| done].
  by destruct (w !! i).
Qed.

Lemma modifies_only_unpack4 P a : modifies_only P (unpack4 a : py T _).
Proof.
  intros h b v _ Hb. unfold unpack4.
  destruct (h !! a) as [[| ? [| ? [| ? [| ? [| ? ?]]]]] |]; done.
Qed.

Lemma modifies_only_setitem a i x :
  modifies_only (λ b, b = a) (setitem a i x : py T ()).
Proof.
  intros h b v Hb Hv. unfold setitem.
  destruct (h !! a) as [w |]; [| done].
  case_decide; [| done]. simpl. by rewrite lookup_insert_ne.
Qed.

End Arrays_facts.

(** ** The notebook's functions on the store *)

Section Notebook_facts.
Context {T : Type} `{Arith T}.
Implicit Types (h : gmap positive (list T)) (cube : positive).
Local Open Scope np_scope.

(** On an array of at least four numbers [prior_transform] returns a new
    array; the first three entries are transformed, the others copied. *)
Lemma prior_transform_run h cube c0 c1 c2 c3 rest :
  h !! cube = Some (c0 :: c1 :: c2 :: c3 :: rest) →
  prior_transform cube h =
    (Ok (fresh (dom h)),
     <[fresh (dom h) :=
         c0 * lit 20 - lit 10
         :: np_pow10 (c1 * lit 4 - lit 2)
         :: np_pow10 (c2 * lit 2)
         :: c3 :: rest]> h).
Proof.
  intros Hc. unfold prior_transform.
  set (p := fresh (dom h)).
  assert (Hp : p ≠ cube) by (by eapply fresh_not_alive).
  erewrite bind_ok; [| by apply ndarray_copy_ok]. fold p.
  erewrite bind_ok;
    [| eapply getitem_ok; [by rewrite lookup_insert_ne | done]].
  erewrite bind_ok;
    [| eapply setitem_ok; [by rewrite lookup_insert_eq | simpl; lia]].
  rewrite insert_insert_eq. simpl.
  erewrite bind_ok;
    [| eapply getitem_ok; [by rewrite lookup_insert_ne | done]].
  erewrite bind_ok;
    [| eapply setitem_ok; [by rewrite lookup_insert_eq | simpl; lia]].
  rewrite insert_insert_eq. simpl.
  erewrite bind_ok;
    [| eapply getitem_ok; [by rewrite lookup_insert_ne | done]].
  erewrite bind_ok;
    [| eapply setitem_ok; [by rewrite lookup_insert_eq | simpl; lia]].
  rewrite insert_insert_eq. simpl.
  erewrite bind_ok;
    [| eapply getitem_ok; [by rewrite lookup_insert_ne | done]].
  erewrite bind_ok;
    [| eapply setitem_ok; [by rewrite lookup_insert_eq | simpl; lia]].
  rewrite insert_insert_eq. simpl.
  done.
Qed.

(** Whatever it is called on, and whether it returns or raises,
    [prior_transform] writes to no array that was alive before the call. *)
Lemma prior_transform_frame h cube a v :
  h !! a = Some v → (prior_transform cube h).2 !! a = Some v.
Proof.
  intros Ha. unfold prior_transform.
  unfold mbind at 1. unfold py_bind, ndarray_copy.
  destruct (h !! cube) as [w |] eqn:Hc; [| done].
  set (p := fresh (dom h)).
  assert (Hp : a ≠ p).
  { intros Heq. by apply (fresh_not_alive h a v Ha). }
  cut (modifies_only (λ b, b = p)
         (c0 ← getitem cube 0;
          setitem p 0 (c0 * lit 20 - lit 10);;
          c1 ← getitem cube 1;
          setitem p 1 (np_pow10 (c1 * lit 4 - lit 2));;
          c2 ← getitem cube 2;
          setitem p 2 (np_pow10 (c2 * lit 2));;
          c3 ← getitem cube 3;
          setitem p 3 c3;;
          mret p : py T positive)).
  { intros Hm. apply Hm; [done |]. by rewrite lookup_insert_ne. }
  repeat first
    [ apply modifies_only_bind; [| intros ?]
    | apply modifies_only_getitem
    | apply modifies_only_setitem
    | apply modifies_only_ret ].
Qed.

(** When [prior_transform] returns, it returns the array it allocated. *)
Lemma prior_transform_returns_new h cube p :
  (prior_transform cube h).1 = Ok p → p = fresh (dom h).
Proof.
  unfold prior_transform. intros Hp.
  apply bind_result in Hp as (q & h1 & Hq & Hp).
  unfold ndarray_copy in Hq. destruct (h !! cube); [| done].
  injection Hq as <- <-.
  repeat (apply bind_result in Hp as (? & ? & _ & Hp)).
  by injection Hp.
Qed.

Lemma log_likelihood_run (t y : list T) h params B A P t0 :
  h !! params = Some [B; A; P; t0] →
  length t = length y →
  log_likelihood t y params h =
    (Ok (lit (- 0.5) *
         np_sum (map (λ x, np_square (x / yerr))
                   (zip_with np_sub
                      (map (λ ti, sine_model ti B A P t0) t) y))),
     h).
Proof.
  intros Hp Hlen. unfold log_likelihood.
  erewrite bind_ok; [| unfold unpack4; by rewrite Hp].
  unfold broadcast2. rewrite decide_True; [| by rewrite length_map].
  done.
Qed.

End Notebook_facts.

(** ** binary64 arithmetic on bounded operands *)

Section Binary64_bounds.
Context (RND : Rounding).
Implicit Types (x y : float64) (lo hi : Z).

Lemma between_weaken a b a' b' x :
  between a b x → a' <= a → b <= b' → between a' b' x.
Proof. intros (r & -> & Hr) Ha Hb. exists r. split; [done | lra]. Qed.

Lemma between_finite a b x :
  between a b x → - MAX <= a → b <= MAX → finite x.
Proof. intros (r & -> & Hr) Ha Hb. exists r. split; [done | lra]. Qed.

Lemma pack_between' lo hi r :
  small lo → small hi → IZR lo <= r <= IZR hi →
  between (IZR lo) (IZR hi) (pack RND r).
Proof.
  intros Hlo Hhi Hr.
  destruct (pack_between RND lo hi r Hlo Hhi Hr) as [-> Hb].
  by exists (rnd r).
Qed.

Lemma lit_small (n : Z) :
  small n → between (IZR n) (IZR n) (pack RND (IZR n)).
Proof.
  intros Hn. rewrite pack_small; [| done]. exists (IZR n). split; [done | lra].
Qed.

Lemma fadd_between lo hi a b c d x y :
  between a b x → between c d y → small lo → small hi →
  IZR lo <= a + c → b + d <= IZR hi →
  between (IZR lo) (IZR hi) (fadd RND x y).
Proof.
  intros (u & -> & Hu) (v & -> & Hv) Hlo Hhi H1 H2. simpl.
  apply pack_between'; [done | done | lra].
Qed.

Lemma fsub_between lo hi a b c d x y :
  between a b x → between c d y → small lo → small hi →
  IZR lo <= a - d → b - c <= IZR hi →
  between (IZR lo) (IZR hi) (fsub RND x y).
Proof.
  intros (u & -> & Hu) (v & -> & Hv) Hlo Hhi H1 H2. simpl.
  apply pack_between'; [done | done | lra].
Qed.

Lemma fmul_between lo hi a b c d x y :
  between a b x → between c d y → small lo → small hi →
  (∀ u v, a <= u <= b → c <= v <= d → IZR lo <= u * v <= IZR hi) →
  between (IZR lo) (IZR hi) (fmul RND x y).
Proof.
  intros (u & -> & Hu) (v & -> & Hv) Hlo Hhi Huv. simpl.
  apply pack_between'; auto.
Qed.

(** Division by a divisor that is bounded away from zero. *)
Lemma fdiv_between lo hi a b c d x y :
  between a b x → between c d y → small lo → small hi → 0 < c →
  (∀ u v, a <= u <= b → c <= v <= d → IZR lo <= u / v <= IZR hi) →
  between (IZR lo) (IZR hi) (fdiv RND x y).
Proof.
  intros (u & -> & Hu) (v & -> & Hv) Hlo Hhi Hc Huv. simpl.
  destruct (Req_dec_T v 0) as [-> |]; [lra |].
  apply pack_between'; auto.
Qed.

Lemma fsin_between x : finite x → between (-1) 1 (fsin RND x).
Proof.
  intros (u & -> & _). simpl.
  apply (pack_between' (-1) 1); [done | done |]. apply SIN_bound.
Qed.

Lemma pow10_2 : Rpower 10 2 = 100.
Proof.
  change 2 with (INR 2). rewrite Rpower_pow; [simpl; lra | lra].
Qed.

(** [10 ** x] for [x] in [[lo, 2]], [lo] zero or negative. *)
Lemma fpow10_between a x :
  between a 2 x → between 0 100 (fpow10 RND x).
Proof.
  intros (u & -> & Hu). simpl.
  apply (pack_between' 0 100); [done | done |]. split.
  - left. apply exp_pos.
  - rewrite <- pow10_2. apply Rle_Rpower; lra.
Qed.

Lemma fpow10_between_0_2 x :
  between 0 2 x → between 1 100 (fpow10 RND x).
Proof.
  intros (u & -> & Hu). simpl.
  apply (pack_between' 1 100); [done | done |]. split.
  - rewrite <- (Rpower_O 10) by lra. apply Rle_Rpower; lra.
  - rewrite <- pow10_2. apply Rle_Rpower; lra.
Qed.

Lemma pi_between : between 3 4 (pack RND PI).
Proof.
  apply (pack_between' 3 4); [done | done |].
  split; [| apply PI_4]. pose proof PI2_3_2. lra.
Qed.

End Binary64_bounds.

(** ** The notebook's functions in binary64 *)

Section Binary64_notebook.
Context (RND : Rounding).
#[local] Existing Instance float64_arith.
Implicit Types (x c B A P : float64).

Lemma div_ge_1 u v a : 0 <= u <= a → 1 <= v → 0 <= u / v <= a.
Proof.
  intros Hu Hv.
  assert (0 < / v) by (apply Rinv_0_lt_compat; lra).
  assert (/ v <= 1) by (rewrite <- Rinv_1; apply Rinv_le_contravar; lra).
  unfold Rdiv. nra.
Qed.

Lemma fsquare_between (hi : Z) a b x :
  between a b x → small hi → (∀ u, a <= u <= b → u * u <= IZR hi) →
  between 0 (IZR hi) (fmul RND x x).
Proof.
  intros (u & -> & Hu) Hhi Hsq. simpl.
  apply (pack_between' RND 0 hi); [done | done |].
  split; [nra | auto].
Qed.

(** Offset: from -10 to +10. *)
Lemma offset_between c :
  between 0 1 c → between (-10) 10 (c * lit 20 - lit 10)%np.
Proof.
  intros Hc.
  eapply (fsub_between RND (-10) 10 0 20 10 10);
    [| by apply (lit_small RND 10) | done | done | lra | lra].
  eapply (fmul_between RND 0 20 0 1 20 20);
    [done | by apply (lit_small RND 20) | done | done |].
  intros u v Hu Hv. nra.
Qed.

(** Amplitude: at most 100, and not negative. *)
Lemma amplitude_between c :
  between 0 1 c → between 0 100 (np_pow10 (c * lit 4 - lit 2))%np.
Proof.
  intros Hc.
  apply (fpow10_between RND (-2)).
  eapply (fsub_between RND (-2) 2 0 4 2 2);
    [| by apply (lit_small RND 2) | done | done | lra | lra].
  eapply (fmul_between RND 0 4 0 1 4 4);
    [done | by apply (lit_small RND 4) | done | done |].
  intros u v Hu Hv. nra.
Qed.

(** Period: from 1 to 100. *)
Lemma period_between c :
  between 0 1 c → between 1 100 (np_pow10 (c * lit 2))%np.
Proof.
  intros Hc.
  apply fpow10_between_0_2.
  eapply (fmul_between RND 0 2 0 1 2 2);
    [done | by apply (lit_small RND 2) | done | done |].
  intros u v Hu Hv. nra.
Qed.

Lemma sine_model_between ti B A P (t0 : float64) :
  between 0 5 ti → between (-10) 10 B → between 0 100 A →
  between 1 100 P → between 0 1 t0 →
  between (-110) 110 (sine_model ti B A P t0).
Proof.
  intros Ht HB HA HP Ht0. unfold sine_model.
  eapply (fadd_between RND (-110) 110 (-100) 100 (-10) 10);
    [| done | done | done | lra | lra].
  eapply (fmul_between RND (-100) 100 0 100 (-1) 1);
    [done | | done | done | intros u v Hu Hv; nra].
  apply fsin_between.
  eapply (between_finite 0 48);
    [| pose proof MAX_large; assert (0 <= IZR (2 ^ 53)) by (apply IZR_le; lia); lra
     | pose proof MAX_large; assert (48 <= IZR (2 ^ 53)) by (apply IZR_le; lia); lra].
  eapply (fmul_between RND 0 48 0 12 3 4);
    [| apply pi_between | done | done | intros u v Hu Hv; nra].
  eapply (fmul_between RND 0 12 0 6 2 2);
    [| by apply (lit_small RND 2) | done | done | intros u v Hu Hv; nra].
  eapply (fadd_between RND 0 6 0 5 0 1);
    [| done | done | done | lra | lra].
  eapply (fdiv_between RND 0 5 0 5 1 100);
    [done | done | done | done | lra |].
  intros u v Hu Hv. apply div_ge_1; lra.
Qed.

Lemma fold_fadd_between (K : Z) (l : list float64) (k : Z) acc :
  (0 ≤ K)%Z → (0 ≤ k)%Z →
  Forall (between 0 (IZR K)) l →
  between 0 (IZR k) acc →
  small (k + Z.of_nat (length l) * K) →
  between 0 (IZR (k + Z.of_nat (length l) * K)) (fold_left (fadd RND) l acc).
Proof.
  intros HK. revert k acc.
  induction l as [| x l IH]; intros k acc Hk Hl Hacc Hs;
    cbn [length fold_left] in *.
  - replace (k + Z.of_nat 0 * K)%Z with k by lia. done.
  - apply Forall_cons in Hl as [Hx Hl].
    replace (k + Z.of_nat (S (length l)) * K)%Z
      with ((k + K) + Z.of_nat (length l) * K)%Z in * by lia.
    apply IH; [lia | done | | done].
    assert (small (k + K)) by (unfold small in *; nia).
    eapply (fadd_between RND 0 (k + K)); [done | done | done | done | lra |].
    rewrite plus_IZR. lra.
Qed.

Lemma np_sum_between (K : Z) (l : list float64) :
  (0 ≤ K)%Z → Forall (between 0 (IZR K)) l →
  small (Z.of_nat (length l) * K) →
  between 0 (IZR (Z.of_nat (length l) * K)) (np_sum l).
Proof.
  intros HK Hl Hs. unfold np_sum.
  apply (fold_fadd_between K l 0); [done | done | done | | done].
  apply (lit_small RND 0). done.
Qed.

(** One term of the chi-square sum. *)
Lemma residual_between (Y : Z) m yi :
  (0 ≤ Y)%Z → small ((110 + Y) * (110 + Y)) →
  between (-110) 110 m → between (- IZR Y) (IZR Y) yi →
  between 0 (IZR ((110 + Y) * (110 + Y)))
    (np_square ((m - yi) / yerr))%np.
Proof.
  intros HY Hs Hm Hy. unfold np_square, yerr.
  assert (Hs1 : small (110 + Y)) by (unfold small in *; nia).
  assert (Hs2 : small (- (110 + Y))) by (unfold small in *; lia).
  assert (HYr : 0 <= IZR Y) by (by apply IZR_le).
  apply (fsquare_between _ (IZR (- (110 + Y))) (IZR (110 + Y))); [| done |].
  - eapply (fdiv_between RND _ _ (IZR (- (110 + Y))) (IZR (110 + Y)) 1 1);
      [| by apply (lit_small RND 1) | done | done | lra |].
    + eapply (fsub_between RND); [done | done | done | done | |];
        rewrite ?opp_IZR, plus_IZR; lra.
    + intros u v Hu Hv. replace v with 1 by lra. lra.
  - intros u. rewrite opp_IZR, mult_IZR, !plus_IZR. intros Hu. nra.
Qed.

Lemma fdiv_finite x P : finite x → between 1 100 P → finite (fdiv RND x P).
Proof.
  intros (u & -> & Hu) (v & -> & Hv). simpl.
  destruct (Req_dec_T v 0) as [-> |]; [lra |].
  assert (Hm : 0 <= MAX).
  { pose proof MAX_large.
    assert (0 <= IZR (2 ^ 53)) by (apply IZR_le; lia). lra. }
  assert (Hr : - MAX <= u / v <= MAX).
  { assert (0 < / v) by (apply Rinv_0_lt_compat; lra).
    assert (/ v <= 1) by (rewrite <- Rinv_1; apply Rinv_le_contravar; lra).
    unfold Rdiv. split; nra. }
  destruct (pack_in_range RND _ Hr) as [-> Hb]. by exists (rnd (u / v)).
Qed.

Lemma residuals_between (Y : Z) B A P (t0 : float64) (t y : list float64) :
  (0 ≤ Y)%Z → small ((110 + Y) * (110 + Y)) →
  between (-10) 10 B → between 0 100 A → between 1 100 P → between 0 1 t0 →
  Forall (between 0 5) t → Forall (between (- IZR Y) (IZR Y)) y →
  Forall (between 0 (IZR ((110 + Y) * (110 + Y))))
    (map (λ x, np_square (x / yerr)%np)
       (zip_with np_sub (map (λ ti, sine_model ti B A P t0) t) y)).
Proof.
  intros HY Hs HB HA HP Ht0 Ht. revert y.
  induction Ht as [| ti t Hti Ht IH]; intros y Hy; [constructor |].
  destruct Hy as [| yi y Hyi Hy]; [constructor |].
  cbn [map zip_with]. constructor; [| by apply IH].
  apply residual_between; [done | done | | done].
  by apply sine_model_between.
Qed.

(** The likelihood of parameters in the prior's range, on the data. *)
Lemma log_likelihood_between (Y : Z) (t y : list float64) h params B A P t0 :
  (0 ≤ Y)%Z → small (Z.of_nat n_data * ((110 + Y) * (110 + Y))) →
  observations Y t y →
  h !! params = Some [B; A; P; t0] →
  between (-10) 10 B → between 0 100 A → between 1 100 P → between 0 1 t0 →
  ∃ L, log_likelihood t y params h = (Ok L, h) ∧
       between (IZR (- (Z.of_nat n_data * ((110 + Y) * (110 + Y))))) 0 L.
Proof.
  intros HY Hs (Hlt & Hly & Ht & Hy) Hp HB HA HP Ht0.
  eexists. split; [apply log_likelihood_run; [done | congruence] |].
  assert (Hs' : small ((110 + Y) * (110 + Y))).
  { unfold small, n_data in *. nia. }
  pose proof (residuals_between Y B A P t0 t y HY Hs' HB HA HP Ht0 Ht Hy)
    as Hres.
  match type of Hres with Forall _ ?l => set (terms := l) in * end.
  assert (Hlen : length terms = n_data).
  { unfold terms. rewrite length_map, length_zip_with, length_map. lia. }
  assert (Hsum := np_sum_between ((110 + Y) * (110 + Y)) terms).
  rewrite Hlen in Hsum. specialize (Hsum ltac:(nia) Hres Hs).
  set (N := (Z.of_nat n_data * ((110 + Y) * (110 + Y)))%Z) in *.
  assert (0 ≤ N)%Z by (unfold N; nia).
  eapply (fmul_between RND (- N) 0 (-1) 0 0 (IZR N));
    [| exact Hsum | unfold small in *; lia | done |].
  - apply (pack_between' RND (-1) 0); [done | done | lra].
  - assert (0 <= IZR N) by (by apply IZR_le).
    intros u v Hu Hv. rewrite opp_IZR. nra.
Qed.

End Binary64_notebook.

(** ** The prior transform and the likelihood on the unit hypercube *)

Lemma unit_cube_inv (v : list float64) :
  unit_cube v →
  ∃ c0 c1 c2 c3, v = [c0; c1; c2; c3] ∧
    between 0 1 c0 ∧ between 0 1 c1 ∧ between 0 1 c2 ∧ between 0 1 c3.
Proof.
  intros [Hlen Hv].
  destruct v as [| c0 [| c1 [| c2 [| c3 [| ? ?]]]]]; try discriminate Hlen.
  exists c0, c1, c2, c3.
  repeat (apply Forall_cons in Hv as [? Hv]). done.
Qed.

Lemma MAX_pos_bound (n : Z) : small n → - MAX <= IZR n <= MAX.
Proof.
  intros Hn. pose proof MAX_large.
  assert (IZR n <= IZR (2 ^ 53)) by (apply IZR_le; unfold small in Hn; lia).
  assert (IZR (- 2 ^ 53) <= IZR n) by (apply IZR_le; unfold small in Hn; lia).
  rewrite opp_IZR in *. lra.
Qed.

Section Pipeline.
Context (RND : Rounding).
#[local] Existing Instance float64_arith.
Implicit Types (h : gmap positive (list float64)) (cube : positive).
Local Open Scope np_scope.

(** C1: for every cube in [0,1]^4 the composed pipeline
    log_likelihood(prior_transform(cube)) returns, without raising, a
    finite float64: neither NaN nor an infinity.  The data are [n_data]
    times in [0, 5] and measurements bounded by [Y]. *)
Theorem log_likelihood_of_prior_transform_finite
    (Y : Z) (t y : list float64) h cube (v : list float64) :
  (0 ≤ Y)%Z → small (Z.of_nat n_data * ((110 + Y) * (110 + Y))) →
  observations Y t y →
  h !! cube = Some v → unit_cube v →
  ∃ L, ((prior_transform cube ≫= log_likelihood t y) h).1 = Ok L ∧
       finite L ∧ L ≠ NaN ∧ L ≠ NInf ∧ L ≠ PInf.
Proof.
  intros HY Hs Hobs Hc Hv.
  destruct (unit_cube_inv v Hv) as (c0 & c1 & c2 & c3 & -> & H0 & H1 & H2 & H3).
  erewrite bind_ok; [| by apply prior_transform_run].
  edestruct (log_likelihood_between RND Y t y) as (L & -> & HL);
    [done | done | done | apply lookup_insert_eq
    | by apply offset_between | by apply amplitude_between
    | by apply period_between | done |].
  exists L. split; [done |].
  assert (Hfin : finite L).
  { eapply between_finite; [done | apply MAX_pos_bound | apply (MAX_pos_bound 0)].
    - unfold small in *. lia.
    - done. }
  split; [done |].
  destruct Hfin as (r & -> & _). done.
Qed.

(** C2: prior_transform is total on [0,1]^4.  It returns, without
    raising, a new array holding (cube[0]*20-10, 10**(cube[1]*4-2),
    10**(cube[2]*2), cube[3]), all four finite; it changes nothing else
    in the store; and a second call on the same argument returns an
    array with the same contents. *)
Theorem prior_transform_total h cube (c0 c1 c2 c3 : float64) :
  h !! cube = Some [c0; c1; c2; c3] → unit_cube [c0; c1; c2; c3] →
  let out := [c0 * lit 20 - lit 10; np_pow10 (c1 * lit 4 - lit 2);
              np_pow10 (c2 * lit 2); c3] in
  ∃ p, h !! p = None ∧
       prior_transform cube h = (Ok p, <[p := out]> h) ∧
       Forall finite out ∧
       ∃ p', prior_transform cube (<[p := out]> h)
             = (Ok p', <[p' := out]> (<[p := out]> h)).
Proof.
  intros Hc Hv out.
  destruct (unit_cube_inv _ Hv) as (? & ? & ? & ? & [= <- <- <- <-] & H0 & H1 & H2 & H3).
  exists (fresh (dom h)). split; [| split; [| split]].
  - apply not_elem_of_dom, is_fresh.
  - by apply prior_transform_run.
  - repeat constructor.
    + eapply between_finite;
        [by apply offset_between | apply (MAX_pos_bound (-10)) | apply (MAX_pos_bound 10)];
        done.
    + eapply between_finite;
        [by apply amplitude_between | apply (MAX_pos_bound 0) | apply (MAX_pos_bound 100)];
        done.
    + eapply between_finite;
        [by apply period_between | apply (MAX_pos_bound 1) | apply (MAX_pos_bound 100)];
        done.
    + eapply between_finite;
        [done | apply (MAX_pos_bound 0) | apply (MAX_pos_bound 1)];
        done.
  - eexists. apply prior_transform_run.
    rewrite lookup_insert_ne; [done |]. by eapply fresh_not_alive.
Qed.

(** Outside the range of the prior the likelihood need not be finite: a
    period of zero at a positive time gives NaN. *)
Lemma log_likelihood_zero_period h params (B A t0 yi : float64) (r : R) :
  0 < r →
  h !! params = Some [B; A; Fin 0; t0] → finite t0 →
  log_likelihood [Fin r] [yi] params h = (Ok NaN, h).
Proof.
  intros Hr Hp (r0 & -> & _).
  rewrite (log_likelihood_run [Fin r] [yi] h params B A (Fin 0) (Fin r0))
    by done.
  do 2 f_equal.
  assert (Hsin : sine_model (Fin r) B A (Fin 0) (Fin r0) = NaN).
  { unfold sine_model. cbn.
    destruct (Req_dec_T 0 0) as [Hz | Hz]; [clear Hz | done].
    destruct (total_order_T 0 r) as [[Hz | Hz] | Hz]; [clear Hz | lra | lra].
    cbn. rewrite (pack_small RND 2) by done.
    unfold inf_times.
    destruct (total_order_T 0 2) as [[Hz | Hz] | Hz]; [clear Hz | lra | lra].
    destruct (pi_between RND) as (p & -> & Hpi).
    cbn. unfold inf_times.
    destruct (total_order_T 0 p) as [[Hz | Hz] | Hz]; [clear Hz | lra | lra].
    cbn. by destruct A. }
  cbn [map zip_with]. rewrite Hsin. unfold np_sum. cbn.
  destruct (pack RND 1); cbn; destruct (pack RND 0); cbn;
    by destruct (pack RND (- 0.5)).
Qed.

(** C10: for every cube in [0,1]^4 the period that prior_transform
    returns is 10**(cube[2]*2); it lies in [1, 100], so it is positive and
    t / P is finite for every finite t.  Both ends are reached (at
    cube[2] = 0 and cube[2] = 1), so the range is not the 0.3 to 30 of the
    comment in the code. *)
Theorem period_range :
  (∀ h cube (c0 c1 c2 c3 : float64),
     h !! cube = Some [c0; c1; c2; c3] → unit_cube [c0; c1; c2; c3] →
     ∃ p h' B A P t0,
       prior_transform cube h = (Ok p, h') ∧
       h' !! p = Some [B; A; P; t0] ∧
       P = np_pow10 (c2 * lit 2) ∧
       (∃ r, P = Fin r ∧ 1 <= r <= 100 ∧ 0 < r) ∧
       ∀ ti, finite ti → finite (ti / P)) ∧
  (∃ c2, between 0 1 c2 ∧ np_pow10 (c2 * lit 2) = Fin 100) ∧
  (∃ c2, between 0 1 c2 ∧ np_pow10 (c2 * lit 2) = Fin 1).
Proof.
  split; [| split].
  - intros h cube c0 c1 c2 c3 Hc Hv.
    destruct (unit_cube_inv _ Hv)
      as (? & ? & ? & ? & [= <- <- <- <-] & H0 & H1 & H2 & H3).
    do 6 eexists.
    split; [by apply prior_transform_run |].
    split; [apply lookup_insert_eq |].
    split; [done |].
    pose proof (period_between RND c2 H2) as HP.
    split.
    + destruct HP as (r & Hr & Hb). exists r. split; [done | lra].
    + intros ti Hti. by apply fdiv_finite.
  - exists (Fin 1). split; [exists 1; split; [done | lra] |].
    cbn. rewrite (pack_small RND 2) by done.
    replace (1 * 2)%R with 2 by lra.
    rewrite (pack_small RND 2) by done. cbn.
    rewrite pow10_2. by apply (pack_small RND 100).
  - exists (Fin 0). split; [exists 0; split; [done | lra] |].
    cbn. rewrite (pack_small RND 2) by done.
    replace (0 * 2)%R with 0 by lra.
    rewrite (pack_small RND 0) by done. cbn.
    rewrite Rpower_O by lra. by apply (pack_small RND 1).
Qed.

End Pipeline.

(** ** The argument of the prior transform *)

Section Frame.
Context {T : Type} `{Arith T}.

(** C9: prior_transform does not mutate its argument.  After the call the
    array [cube] holds what it held before, and so does every other array
    that was alive; the array returned is a new one.  This holds for every
    array [cube], so in particular for those in [0,1]^4, and whether the
    call returns or raises. *)
Theorem prior_transform_does_not_mutate
    (h : gmap positive (list T)) (cube : positive) (v : list T) :
  h !! cube = Some v →
  (prior_transform cube h).2 !! cube = Some v ∧
  (∀ a w, h !! a = Some w → (prior_transform cube h).2 !! a = Some w) ∧
  (∀ p, (prior_transform cube h).1 = Ok p → h !! p = None ∧ p ≠ cube).
Proof.
  intros Hc. split; [by apply prior_transform_frame |].
  split; [intros a w; apply prior_transform_frame |].
  intros p Hp. apply prior_transform_returns_new in Hp as ->.
  split; [apply not_elem_of_dom, is_fresh | by eapply fresh_not_alive].
Qed.

End Frame.

(** ** Periodicity of the model *)

Lemma sine_model_shift_t0 (t B A P t0 : R) :
  sine_model t B A P (t0 + 1) = sine_model t B A P t0.
Proof.
  unfold sine_model. cbn.
  replace ((t / P + (t0 + 1)) * 2 * PI)
    with ((t / P + t0) * 2 * PI + 2 * INR 1 * PI) by (simpl; lra).
  by rewrite sin_period.
Qed.

(** C3, amended: in exact arithmetic sine_model has period 1 in t0, and in
    no other parameter: the i-th parameter is declared wrapped in
    [wrapped_params] exactly when the model is 1-periodic in it. *)
Theorem sine_model_periodic_in_t0_only :
  (∀ t B A P t0 : R, P ≠ 0 →
     sine_model t B A P (t0 + 1) = sine_model t B A P t0) ∧
  (∀ i, (i < length parameters)%nat →
     wrapped_params !! i = Some true ↔ one_periodic i).
Proof.
  split; [intros; apply sine_model_shift_t0 |].
  intros i Hi.
  assert (Hnz : ∀ P : R, P ≠ 0 → ∀ Q, Some P = Some Q → Q ≠ 0) by congruence.
  destruct i as [| [| [| [| i]]]]; cbn in Hi; [| | | | lia].
  - split; [done |]. intros Hper. exfalso.
    specialize (Hper 0 [0; 0; 1; 0]). cbn in Hper.
    unfold nonzero_period in Hper. cbn in Hper.
    specialize (Hper (Hnz 1 ltac:(lra)) (Hnz 1 ltac:(lra))).
    injection Hper. unfold sine_model. cbn. lra.
  - split; [done |]. intros Hper. exfalso.
    specialize (Hper (1 / 4) [0; 0; 1; 0]). cbn in Hper.
    unfold nonzero_period in Hper. cbn in Hper.
    specialize (Hper (Hnz 1 ltac:(lra)) (Hnz 1 ltac:(lra))).
    injection Hper. unfold sine_model. cbn.
    replace ((1 / 4 / 1 + 0) * 2 * PI) with (PI / 2) by lra.
    rewrite sin_PI2. lra.
  - split; [done |]. intros Hper. exfalso.
    specialize (Hper (1 / 2) [0; 1; 1; 0]). cbn in Hper.
    unfold nonzero_period in Hper. cbn in Hper.
    specialize (Hper (Hnz 1 ltac:(lra)) (Hnz (1 + 1) ltac:(lra))).
    injection Hper. unfold sine_model. cbn.
    replace ((1 / 2 / (1 + 1) + 0) * 2 * PI) with (PI / 2) by lra.
    replace ((1 / 2 / 1 + 0) * 2 * PI) with PI by lra.
    rewrite sin_PI2, sin_PI. lra.
  - split; [| done]. intros _ t params _ _.
    destruct params as [| B [| A [| P [| t0 [| ? ?]]]]]; try done.
    cbn. f_equal. apply sine_model_shift_t0.
Qed.

(** *** The model in binary64 under a rounding that loses digits *)

Lemma powerRZ_nonneg_IZR (k : Z) : (0 ≤ k)%Z → powerRZ 2 k = IZR (2 ^ k).
Proof.
  intros Hk. rewrite <- (Z2Nat.id k Hk), <- pow_powerRZ.
  by rewrite <- pow_IZR.
Qed.

Lemma grid_inverse : powerRZ 2 (-1074) * powerRZ 2 1074 = 1.
Proof. rewrite <- powerRZ_add by lra. reflexivity. Qed.

Lemma grid_pos : 0 < powerRZ 2 (-1074).
Proof. apply powerRZ_lt. lra. Qed.

Lemma grid_pos' : 0 < powerRZ 2 1074.
Proof. apply powerRZ_lt. lra. Qed.

Lemma grid_small : powerRZ 2 (-1074) <= / 1024.
Proof.
  pose proof grid_inverse as Hinv. pose proof grid_pos' as HG.
  assert (Hbig : 1024 <= powerRZ 2 1074).
  { rewrite powerRZ_nonneg_IZR by lia. apply IZR_le.
    apply Z.leb_le. by vm_compute. }
  replace (powerRZ 2 (-1074)) with (/ powerRZ 2 1074).
  - apply Rinv_le_contravar; lra.
  - apply (Rmult_eq_reg_r (powerRZ 2 1074)); [| lra].
    rewrite Hinv. field. lra.
Qed.

(** [round_down] is the floor on the grid. *)
Lemma round_down_bounds (x : R) :
  round_down x <= x < round_down x + powerRZ 2 (-1074).
Proof.
  unfold round_down.
  destruct (base_Int_part (x * powerRZ 2 1074)) as [Hlo Hhi].
  pose proof grid_pos as Hg. pose proof grid_inverse as Hinv.
  set (n := IZR (Int_part _)) in *. set (g := powerRZ 2 (-1074)) in *.
  set (G := powerRZ 2 1074) in *.
  assert (Hx : x * G * g = x)
    by (rewrite Rmult_assoc, (Rmult_comm G); fold g; rewrite Hinv; lra).
  split.
  - apply Rle_trans with (x * G * g); [apply Rmult_le_compat_r; lra | lra].
  - apply Rle_lt_trans with (x * G * g); [lra |].
    replace (n * g + g) with ((n + 1) * g) by lra.
    apply Rmult_lt_compat_r; lra.
Qed.

Lemma round_down_grid (n : Z) :
  round_down (IZR n * powerRZ 2 (-1074)) = IZR n * powerRZ 2 (-1074).
Proof.
  unfold round_down. rewrite Rmult_assoc, grid_inverse, Rmult_1_r.
  f_equal. f_equal. symmetry. apply Int_part_spec. lra.
Qed.

Lemma round_down_mono (x y : R) : x <= y → round_down x <= round_down y.
Proof.
  intros Hxy. unfold round_down.
  apply Rmult_le_compat_r; [pose proof grid_pos; lra |].
  apply IZR_le.
  destruct (base_Int_part (x * powerRZ 2 1074)) as [Hx _].
  destruct (base_Int_part (y * powerRZ 2 1074)) as [_ Hy].
  assert (Hle : x * powerRZ 2 1074 <= y * powerRZ 2 1074)
    by (apply Rmult_le_compat_r; [pose proof grid_pos'; lra | done]).
  assert (Hlt : IZR (Int_part (x * powerRZ 2 1074))
                < IZR (Int_part (y * powerRZ 2 1074) + 1))
    by (rewrite plus_IZR; lra).
  apply lt_IZR in Hlt. lia.
Qed.

Lemma representable_grid (r : R) :
  representable r → ∃ n : Z, r = IZR n * powerRZ 2 (-1074).
Proof.
  intros (m & e & _ & He & ->).
  exists (m * 2 ^ (e + 1074))%Z.
  rewrite mult_IZR, <- powerRZ_nonneg_IZR by lia.
  rewrite Rmult_assoc, <- powerRZ_add by lra.
  do 2 f_equal. lia.
Qed.

Lemma round_down_one : round_down 1 = 1.
Proof.
  destruct (representable_grid 1) as [n Hn].
  - exists 1%Z, 0%Z. split; [lia |]. split; [lia |]. cbn. lra.
  - rewrite Hn. apply round_down_grid.
Qed.

Lemma coarse_mono (x y : R) : x <= y → coarse x <= coarse y.
Proof.
  intros Hxy. unfold coarse.
  destruct (Rle_dec 1 x) as [Hx | Hx], (Rle_dec 1 y) as [Hy | Hy]; try lra.
  - by apply round_down_mono.
  - pose proof (round_down_mono 1 y Hy) as H1. rewrite round_down_one in H1. lra.
Qed.

Lemma coarse_repr (r : R) : representable r → coarse r = r.
Proof.
  intros [n ->]%representable_grid. unfold coarse.
  destruct (Rle_dec 1 _); [apply round_down_grid | done].
Qed.

Lemma coarse_below (x : R) : x <= 1 → coarse x = x.
Proof.
  intros Hx. unfold coarse. destruct (Rle_dec 1 x) as [H1 | H1]; [| done].
  replace x with 1 by lra. apply round_down_one.
Qed.

Lemma coarse_bounds (x : R) : coarse x <= x < coarse x + powerRZ 2 (-1074).
Proof.
  unfold coarse. destruct (Rle_dec 1 x); [apply round_down_bounds |].
  pose proof grid_pos. lra.
Qed.

Lemma coarse_grid (n : Z) :
  coarse (IZR n * powerRZ 2 (-1074)) = IZR n * powerRZ 2 (-1074).
Proof.
  unfold coarse. destruct (Rle_dec 1 _); [apply round_down_grid | done].
Qed.

Lemma coarse_on_grid (x : R) :
  ∃ n : Z, coarse x = IZR n * powerRZ 2 (-1074) ∨ x < 1.
Proof.
  unfold coarse. destruct (Rle_dec 1 x); [| exists 0%Z; right; lra].
  eexists. left. reflexivity.
Qed.

(** Four thirds is not on the grid: rounding it down loses at least a
    third of a step. *)
Lemma round_down_four_thirds :
  round_down (1 / 3 + 1) <= 4 / 3 - powerRZ 2 (-1074) / 3.
Proof.
  unfold round_down.
  destruct (base_Int_part ((1 / 3 + 1) * powerRZ 2 1074)) as [Hlo _].
  pose proof grid_pos as Hg. pose proof grid_inverse as Hinv.
  set (n := Int_part _) in *.
  assert (HG : powerRZ 2 1074 = IZR (2 ^ 1074)) by (apply powerRZ_nonneg_IZR; lia).
  rewrite HG in Hlo, Hinv.
  assert (Hle : (3 * n ≤ 4 * 2 ^ 1074)%Z).
  { apply le_IZR. rewrite !mult_IZR. lra. }
  assert (Hmod : ((4 * 2 ^ 1074) mod 3 = 1)%Z) by by vm_compute.
  set (K := (4 * 2 ^ 1074)%Z) in *.
  assert (Hlt : (3 * n ≤ K - 1)%Z) by lia.
  apply IZR_le in Hlt. rewrite minus_IZR, mult_IZR in Hlt.
  assert (HK : IZR K = 4 * IZR (2 ^ 1074)) by (unfold K; by rewrite mult_IZR).
  set (g := powerRZ 2 (-1074)) in *. set (G := IZR (2 ^ 1074)) in *.
  assert (H3 : 3 * (IZR n * g) <= (4 * G - 1) * g)
    by (rewrite <- Rmult_assoc; apply Rmult_le_compat_r; lra).
  replace ((4 * G - 1) * g) with (4 * (g * G) - g) in H3 by lra.
  rewrite Hinv in H3. lra.
Qed.

Section Coarse.
Context (RND : Rounding) (Hrnd : ∀ x, rnd x = coarse x).

#[local] Existing Instance float64_arith.

Lemma pack_coarse (r : R) : -16 <= r <= 16 → pack RND r = Fin (coarse r).
Proof.
  intros Hr. pose proof MAX_large as HM.
  assert (H16 : 16 <= IZR (2 ^ 53)) by (apply IZR_le; lia).
  destruct (pack_in_range RND r) as [-> _]; [lra | by rewrite Hrnd].
Qed.

(** The model at t = 1, B = 0, A = 1, P = 3, from the sum t / P + t0 on. *)
Lemma sine_model_coarse (s : R) :
  1 / 3 <= s <= 4 / 3 →
  fadd RND (fmul RND (Fin 1)
    (fsin RND (fmul RND (fmul RND (Fin s) (pack RND 2)) (pack RND PI))))
    (Fin 0)
  = Fin (1 * sin (coarse (coarse (s * 2) * coarse PI)) + 0).
Proof.
  intros Hs. pose proof PI_4 as Hpi4. pose proof PI2_3_2 as Hpi3.
  pose proof grid_pos as Hg. pose proof grid_small as Hg'.
  pose proof (coarse_bounds PI) as Hp.
  pose proof (coarse_bounds (s * 2)) as Ha.
  pose proof (coarse_bounds (coarse (s * 2) * coarse PI)) as Hy.
  assert (Hp3 : 3 <= coarse PI).
  { rewrite <- (coarse_repr 3) by (apply (small_representable 3); lia).
    apply coarse_mono. lra. }
  assert (Ha0 : 0 <= coarse (s * 2)).
  { rewrite <- (coarse_repr 0) by (apply (small_representable 0); lia).
    apply coarse_mono. lra. }
  assert (Hy0 : 0 <= coarse (coarse (s * 2) * coarse PI)).
  { rewrite <- (coarse_repr 0) at 1 by (apply (small_representable 0); lia).
    apply coarse_mono. nra. }
  assert (Hy16 : coarse (s * 2) * coarse PI <= 16) by nra.
  set (y := coarse (coarse (s * 2) * coarse PI)) in *.
  pose proof (SIN_bound y) as Hsin.
  rewrite (pack_coarse 2), (pack_coarse PI) by lra.
  rewrite (coarse_repr 2) by (apply (small_representable 2); lia).
  cbn [fmul]. rewrite (pack_coarse (s * 2)) by lra.
  cbn [fmul]. rewrite (pack_coarse (coarse (s * 2) * coarse PI)) by nra.
  fold y. cbn [fsin]. rewrite (pack_coarse (sin y)), coarse_below by lra.
  cbn [fmul]. rewrite (pack_coarse (1 * sin y)), coarse_below by lra.
  cbn [fadd]. rewrite (pack_coarse (1 * sin y + 0)), coarse_below by lra.
  done.
Qed.

(** With this rounding the model at t0 + 1 is above the model at t0. *)
Lemma sine_model_coarse_shift :
  ∃ u v : R,
    sine_model (Fin 1) (Fin 0) (Fin 1) (Fin 3) (fadd RND (Fin 0) (pack RND 1))
      = Fin u ∧
    sine_model (Fin 1) (Fin 0) (Fin 1) (Fin 3) (Fin 0) = Fin v ∧
    v < u.
Proof.
  pose proof PI_4 as Hpi4. pose proof PI2_3_2 as Hpi3.
  pose proof grid_pos as Hg. pose proof grid_small as Hg'.
  set (g := powerRZ 2 (-1074)) in *.
  assert (Hone : coarse 1 = 1) by (apply coarse_below; lra).
  assert (HF : 1 <= coarse (1 / 3 + 1) <= 4 / 3 - g / 3).
  { split.
    - rewrite <- Hone at 1. apply coarse_mono. lra.
    - unfold coarse. destruct (Rle_dec 1 (1 / 3 + 1)); [| lra].
      apply round_down_four_thirds. }
  pose proof (coarse_bounds (1 / 3 + 1)) as HF'. fold g in HF'.
  set (F := coarse (1 / 3 + 1)) in *.
  exists (1 * sin (coarse (coarse (F * 2) * coarse PI)) + 0),
         (1 * sin (coarse (coarse ((1 / 3 + 0) * 2) * coarse PI)) + 0).
  split; [| split].
  - unfold sine_model.
    cbn [np_add np_mul np_div np_sin lit np_pi float64_arith fadd fdiv].
    destruct (Req_dec_T 3 0) as [H30 | _]; [lra |].
    rewrite (pack_coarse (1 / 3)), coarse_below by lra.
    rewrite (pack_coarse 1), Hone by lra.
    cbn [fadd]. rewrite (pack_coarse (0 + 1)), coarse_below by lra.
    cbn [fadd]. replace (1 / 3 + (0 + 1)) with (1 / 3 + 1) by lra.
    rewrite (pack_coarse (1 / 3 + 1)) by lra. fold F.
    apply sine_model_coarse. lra.
  - unfold sine_model.
    cbn [np_add np_mul np_div np_sin lit np_pi float64_arith fadd fdiv].
    destruct (Req_dec_T 3 0) as [H30 | _]; [lra |].
    rewrite (pack_coarse (1 / 3)), coarse_below by lra.
    cbn [fadd]. rewrite (pack_coarse (1 / 3 + 0)), coarse_below by lra.
    apply sine_model_coarse. lra.
  - assert (Hp3 : 3 <= coarse PI).
    { rewrite <- (coarse_repr 3) by (apply (small_representable 3); lia).
      apply coarse_mono. lra. }
    pose proof (coarse_bounds PI) as Hp. fold g in Hp.
    set (p := coarse PI) in *.
    rewrite (coarse_below ((1 / 3 + 0) * 2)) by lra.
    assert (HF2 : coarse (F * 2) = F * 2).
    { destruct (coarse_on_grid (1 / 3 + 1)) as [n [Hn | Hn]]; [| lra].
      fold F in Hn. rewrite Hn.
      replace (IZR n * powerRZ 2 (-1074) * 2)
        with (IZR (n * 2) * powerRZ 2 (-1074)) by (rewrite mult_IZR; lra).
      apply coarse_grid. }
    rewrite HF2.
    pose proof (coarse_bounds ((1 / 3 + 0) * 2 * p)) as Hy0. fold g in Hy0.
    pose proof (coarse_bounds (F * 2 * p)) as Hy1. fold g in Hy1.
    set (y0 := coarse ((1 / 3 + 0) * 2 * p)) in *.
    set (y1 := coarse (F * 2 * p)) in *.
    assert (Hup : F * 2 * p <= 8 / 3 * p - 2 * g) by nra.
    assert (Hlow : 8 / 3 * p - 8 * g <= F * 2 * p) by nra.
    replace (sin y1) with (sin (y1 - 2 * PI)).
    + assert (Hlt : sin y0 < sin (y1 - 2 * PI)); [| lra].
      apply sin_decreasing_1; lra.
    + rewrite <- (sin_period (y1 - 2 * PI) 1). f_equal. simpl. lra.
Qed.

End Coarse.

(** In binary64 the model at t0 + 1 need not equal the model at t0: under
    the rounding [coarse], at t = 1, B = 0, A = 1, P = 3 and t0 = 0, the sum
    t / P + t0 is 1/3 at t0 and 4/3 rounded down at t0 + 1, and the two
    sines differ. *)
Lemma sine_model_not_periodic_binary64 :
  ∃ RND : Rounding,
    (∀ x, rnd x = coarse x) ∧
    @sine_model float64 (float64_arith RND) (Fin 1) (Fin 0) (Fin 1) (Fin 3)
      (fadd RND (Fin 0) (pack RND 1))
    ≠ @sine_model float64 (float64_arith RND) (Fin 1) (Fin 0) (Fin 1) (Fin 3)
        (Fin 0).
Proof.
  exists {| rnd := coarse; rnd_mono := coarse_mono; rnd_repr := coarse_repr |}.
  split; [done |].
  match goal with
  | |- @sine_model _ (float64_arith ?r) _ _ _ _ _ ≠ _ =>
      destruct (sine_model_coarse_shift r (λ x, eq_refl))
        as (u & v & -> & -> & Huv)
  end.
  intros [= Heq]. lra.
Qed.

(** ** The sampler: what every run preserves *)

Module SamplerFacts.
Import Sampler.

Lemma worst_alive (live : gmap nat LivePoint) i w :
  is_worst live i w → (0 < size live)%nat.
Proof.
  intros [Hw _].
  assert (size live ≠ 0%nat); [| lia].
  apply map_size_ne_0_lookup. by exists i, w.
Qed.

Section Machine_facts.
Variable E : Setting.

Lemma invariant_initial : invariant E initial.
Proof.
  split; cbn; try done.
  - intros [H | [H | H]]; discriminate H.
  - intros d Hd. by apply elem_of_nil in Hd.
Qed.

Lemma invariant_goto ph m :
  invariant E m →
  (ph = INITIALIZING → state m = INITIALIZING) →
  (ph = SAMPLING ∨ ph = REACTIVE_EXPAND ∨ ph = CONVERGED →
   (min_num_live_points (config E) ≤ size (live_points (run m)))%nat) →
  invariant E (goto ph m).
Proof.
  intros [] Hi Hf. split; cbn; auto.
Qed.

(** A new point that exceeds the threshold keeps the invariant. *)
Lemma invariant_add_live p k m :
  invariant E m → valid_point E p →
  exceeds (threshold (run m)) p →
  invariant E (add_live p k m).
Proof.
  intros [Hidx Hval Hinit Hfloor Hthr Hvol Hsort] Hp Hex.
  assert (Hfresh : live_points (run m) !! next_index m = None).
  { destruct (live_points (run m) !! next_index m) as [q |] eqn:Hq; [| done].
    apply Hidx in Hq. lia. }
  split; cbn; try done.
  - intros i q [[<- <-] | [_ Hq]]%lookup_insert_Some; [lia |].
    apply Hidx in Hq. lia.
  - intros i q [[<- <-] | [_ Hq]]%lookup_insert_Some; [done |].
    by eapply Hval.
  - intros Hs. rewrite map_size_insert_None by done.
    specialize (Hfloor Hs). lia.
  - intros L i q HL [[<- <-] | [_ Hq]]%lookup_insert_Some.
    + left. by apply Hex.
    + by eapply Hthr.
Qed.

(** Removing the worst point keeps the invariant, except for the floor
    on the number of live points, which the replacement restores. *)
Lemma kill_threshold i w ev var m :
  is_worst (live_points (run m)) i w →
  threshold (run (kill i w ev var m)) = Some (log_likelihood w).
Proof. intros _. unfold threshold. cbn. by rewrite last_snoc. Qed.

Lemma kill_volume i w ev var m :
  is_worst (live_points (run m)) i w →
  log_volume_estimate (run (kill i w ev var m))
  < log_volume_estimate (run m).
Proof.
  intros Hw%worst_alive. cbn.
  assert (0 < INR (size (live_points (run m)))) by (by apply lt_0_INR).
  assert (0 < 1 / INR (size (live_points (run m))))
    by (apply Rdiv_lt_0_compat; lra).
  lra.
Qed.

Lemma invariant_step m m' :
  invariant E m → step E m m' → invariant E m'.
Proof.
  intros Hinv Hstep.
  destruct Hstep as [m p k Hst Hsz Hp Hk | m Hst Hsz
                    | m i w ev var c k Hst Hw Hc Hlt Hk | m Hst
                    | m p k Hst Hp Hex Hk | m Hst | m Hst Hstop
                    | m Hst | m Hst].
  - apply invariant_add_live; [done | done |].
    intros l Hl. unfold threshold in Hl.
    by rewrite (inv_init _ _ Hinv Hst) in Hl.
  - apply invariant_goto; [done | done | lia].
  - pose proof (kill_volume i w ev var m Hw) as Hvol.
    destruct Hw as [Hwi Hmin].
    destruct Hinv as [Hidx Hval Hinit Hfloor Hthr Hvol' Hsort].
    assert (Hfresh : delete i (live_points (run m)) !! next_index m = None).
    { apply lookup_delete_None. right.
      destruct (live_points (run m) !! next_index m) as [q |] eqn:Hq; [| done].
      apply Hidx in Hq. lia. }
    split; cbn -[kill]; cbn.
    + intros j q [[<- <-] | [_ [_ Hq]%lookup_delete_Some]]%lookup_insert_Some;
        [lia |].
      apply Hidx in Hq. lia.
    + intros j q [[<- <-] | [_ [_ Hq]%lookup_delete_Some]]%lookup_insert_Some;
        [done |].
      by eapply Hval.
    + congruence.
    + intros _. rewrite map_size_insert_None by done.
      rewrite map_size_delete_Some by done.
      assert (size (live_points (run m)) ≠ 0%nat).
      { apply map_size_ne_0_lookup. by exists i, w. }
      specialize (Hfloor ltac:(by left)). lia.
    + intros L j q HL. unfold threshold in HL. cbn in HL.
      rewrite last_snoc in HL. injection HL as <-.
      intros [[<- <-] | [_ [_ Hq]%lookup_delete_Some]]%lookup_insert_Some.
      * by left.
      * by eapply Hmin.
    + intros d [Hd | ->%list_elem_of_singleton]%elem_of_app.
      * specialize (Hvol' d Hd). cbn in Hvol. lra.
      * cbn. lra.
    + intros a b d d' Hab
        [[Ha Hd] | [-> <-]]%lookup_snoc_Some
        [[Hb Hd'] | [-> <-]]%lookup_snoc_Some.
      * exact (Hsort a b d d' Hab Hd Hd').
      * cbn. apply list_elem_of_lookup_2 in Hd.
        specialize (Hvol' d Hd). cbn in Hvol. lra.
      * lia.
      * lia.
  - apply invariant_goto; [done | congruence |].
    intros _. apply (inv_floor _ _ Hinv). by left.
  - by apply invariant_add_live.
  - apply invariant_goto; [done | congruence |].
    intros _. apply (inv_floor _ _ Hinv). by right; left.
  - apply invariant_goto; [done | congruence |].
    intros _. apply (inv_floor _ _ Hinv). by left.
  - apply invariant_goto; [done | congruence |].
    intros [H | [H | H]]; discriminate H.
  - apply invariant_goto; [done | congruence |].
    intros [H | [H | H]]; discriminate H.
Qed.

Lemma reachable_invariant m : reachable E m → invariant E m.
Proof.
  intros [_ Hrun]. revert m Hrun. apply rtc_ind_r.
  - apply invariant_initial.
  - intros m1 m2 _ Hstep IH. by eapply invariant_step.
Qed.

(** Only a step of SAMPLING records a dead point. *)
Lemma step_dead_points m m' :
  step E m m' →
  dead_points (run m') = dead_points (run m) ∨
  ∃ i w ev var c k,
    is_worst (live_points (run m)) i w ∧
    m' = add_live c k (kill i w ev var m).
Proof.
  intros [m0 p k _ _ _ _ | m0 _ _ | m0 i w ev var c k _ Hw _ _ _ | m0 _
         | m0 p k _ _ _ _ | m0 _ | m0 _ _ | m0 _ | m0 _];
    try (by left).
  right. by exists i, w, ev, var, c, k.
Qed.

(** C7: at every point of a run, every live point has a log-likelihood
    at or above the current threshold L*, the log-likelihood of the
    most recently removed point; while the initial population is being
    drawn there is no threshold. *)
Theorem live_points_above_threshold m :
  reachable E m →
  (∀ L i p,
     threshold (run m) = Some L → live_points (run m) !! i = Some p →
     L <= log_likelihood p) ∧
  (state m = INITIALIZING → threshold (run m) = None).
Proof.
  intros [Hidx Hval Hinit Hfloor Hthr Hvol Hsort]%reachable_invariant.
  split; [done |].
  intros Hst. unfold threshold. by rewrite (Hinit Hst).
Qed.

(** C5: every removal of a dead point lowers log_volume_estimate
    strictly: the enclosed volume is multiplied by exp(-1/N) < 1, N the
    number of live points at that step; so the volumes recorded with
    the dead points of a run decrease strictly. *)
Theorem log_volume_strictly_decreases :
  (∀ m m',
     step E m m' → dead_points (run m') ≠ dead_points (run m) →
     let N := size (live_points (run m)) in
     (0 < N)%nat ∧
     log_volume_estimate (run m') = log_volume_estimate (run m) - 1 / INR N ∧
     exp (log_volume_estimate (run m'))
       = exp (- (1 / INR N)) * exp (log_volume_estimate (run m)) ∧
     exp (- (1 / INR N)) < 1 ∧
     log_volume_estimate (run m') < log_volume_estimate (run m)) ∧
  (∀ m, reachable E m →
     ∀ i j d d', (i < j)%nat →
       dead_points (run m) !! i = Some d →
       dead_points (run m) !! j = Some d' →
       log_volume d' < log_volume d).
Proof.
  split.
  - intros m m' Hstep Hdead.
    destruct (step_dead_points m m' Hstep)
      as [? | (i & w & ev & var & c & k & Hw & ->)]; [done |].
    pose proof (worst_alive _ _ _ Hw) as HN. cbn.
    set (N := size (live_points (run m))) in *.
    assert (0 < INR N) by (by apply lt_0_INR).
    assert (0 < 1 / INR N) by (apply Rdiv_lt_0_compat; lra).
    split; [done |]. split; [done |].
    split; [rewrite <- exp_plus; f_equal; lra |].
    split; [| lra].
    apply Rlt_le_trans with (exp 0); [apply exp_increasing; lra |].
    rewrite exp_0. lra.
  - intros m Hm%reachable_invariant. apply (inv_sorted _ _ Hm).
Qed.

End Machine_facts.











End SamplerFacts.

(** * Examples *)

Lemma example_observations : observations 1 example_t example_y.
Proof.
  split; [reflexivity |]. split; [reflexivity |].
  split; solve_all_between.
Qed.

Lemma example_unit_cube : unit_cube example_cube.
Proof. split; [reflexivity | solve_all_between]. Qed.

Lemma example_store_cube : example_store !! 1%positive = Some example_cube.
Proof. apply lookup_singleton_eq. Qed.

(** The pipeline on the example data, under exact rounding. *)
Lemma log_likelihood_of_prior_transform_finite_example :
  ∃ L,
    ((@prior_transform float64 (float64_arith exact) 1%positive
      ≫= @log_likelihood float64 (float64_arith exact) example_t example_y)
       example_store).1 = Ok L ∧
    finite L ∧ L ≠ NaN ∧ L ≠ NInf ∧ L ≠ PInf.
Proof.
  apply (log_likelihood_of_prior_transform_finite exact 1 example_t example_y
           example_store 1%positive example_cube).
  - lia.
  - by vm_compute.
  - exact example_observations.
  - exact example_store_cube.
  - exact example_unit_cube.
Defined.

(** The prior transform on the example cube, under exact rounding. *)
Lemma prior_transform_total_example :
  let out :=
    [fsub exact (fmul exact (Fin (1 / 2)) (pack exact 20)) (pack exact 10);
     fpow10 exact (fsub exact (fmul exact (Fin (1 / 4)) (pack exact 4))
                     (pack exact 2));
     fpow10 exact (fmul exact (Fin 1) (pack exact 2));
     Fin 0] in
  ∃ p, example_store !! p = None ∧
       @prior_transform float64 (float64_arith exact) 1%positive example_store
         = (Ok p, <[p := out]> example_store) ∧
       Forall finite out ∧
       ∃ p', @prior_transform float64 (float64_arith exact) 1%positive
               (<[p := out]> example_store)
             = (Ok p', <[p' := out]> (<[p := out]> example_store)).
Proof.
  apply (prior_transform_total exact example_store 1%positive
           (Fin (1 / 2)) (Fin (1 / 4)) (Fin 1) (Fin 0)).
  - exact example_store_cube.
  - exact example_unit_cube.
Defined.

(** The argument of the prior transform on the example store. *)
Lemma prior_transform_does_not_mutate_example :
  (@prior_transform float64 (float64_arith exact) 1%positive example_store).2
    !! 1%positive = Some example_cube ∧
  (∀ a w, example_store !! a = Some w →
     (@prior_transform float64 (float64_arith exact) 1%positive example_store).2
       !! a = Some w) ∧
  (∀ p,
     (@prior_transform float64 (float64_arith exact) 1%positive example_store).1
       = Ok p →
     example_store !! p = None ∧ p ≠ 1%positive).
Proof.
  apply (@prior_transform_does_not_mutate float64 (float64_arith exact)
           example_store 1%positive example_cube).
  exact example_store_cube.
Defined.

(** The period on the example cube, under exact rounding. *)
Lemma period_range_example :
  ∃ p h' B A P t0,
    @prior_transform float64 (float64_arith exact) 1%positive example_store
      = (Ok p, h') ∧
    h' !! p = Some [B; A; P; t0] ∧
    P = fpow10 exact (fmul exact (Fin 1) (pack exact 2)) ∧
    (∃ r, P = Fin r ∧ 1 <= r <= 100 ∧ 0 < r) ∧
    ∀ ti, finite ti → finite (fdiv exact ti P).
Proof.
  apply (proj1 (period_range exact) example_store 1%positive
           (Fin (1 / 2)) (Fin (1 / 4)) (Fin 1) (Fin 0)).
  - exact example_store_cube.
  - exact example_unit_cube.
Defined.

(** One period of the model at t = 1, B = 0, A = 1, P = 2. *)
Lemma sine_model_periodic_example :
  sine_model 1 0 1 2 (0 + 1) = sine_model 1 0 1 2 0.
Proof.
  apply (proj1 sine_model_periodic_in_t0_only 1 0 1 2 0). lra.
Defined.

Module SamplerExamples.
Import Sampler SamplerFacts.

Lemma example_point_valid u :
  0 <= u <= 1 →
  valid_point example_setting (example_point u).
Proof.
  intros Hu. split; [done |].
  split; [| done]. apply List.Forall_cons; [done | apply List.Forall_nil].
Qed.

Lemma example_m1_size : size (live_points (run example_m1)) = 1%nat.
Proof. cbn. by rewrite map_size_insert_None, map_size_empty. Qed.

Lemma example_m2_size : size (live_points (run example_m2)) = 2%nat.
Proof.
  cbn -[example_m1]. rewrite map_size_insert_None; [| done].
  by rewrite example_m1_size.
Qed.

Lemma example_m3_worst :
  is_worst (live_points (run example_m3)) 0 (example_point 0).
Proof.
  split; [done |]. cbn.
  intros j q [[_ <-] | [_ [[_ <-] | [_ Hq]]%lookup_insert_Some]]%lookup_insert_Some;
    cbn; [lra | lra | done].
Qed.

Lemma example_m3_reachable : reachable example_setting example_m3.
Proof.
  split; [done |].
  apply (rtc_l _ _ example_m1).
  { apply (step_draw _ initial);
      [done | cbn; rewrite map_size_empty; lia
      | apply example_point_valid; lra | done]. }
  apply (rtc_l _ _ example_m2).
  { apply (step_draw _ example_m1);
      [done | rewrite example_m1_size; cbn; lia
      | apply example_point_valid; lra | done]. }
  apply rtc_once.
  apply (step_start _ example_m2); [done |].
  by rewrite example_m2_size.
Qed.

Lemma example_m4_step : step example_setting example_m3 example_m4.
Proof.
  apply (step_sample _ example_m3);
    [done | apply example_m3_worst | apply example_point_valid; lra
    | cbn; lra | done].
Qed.

Lemma example_m4_reachable : reachable example_setting example_m4.
Proof.
  destruct example_m3_reachable as [Hcfg Hrun].
  split; [done |]. eapply rtc_r; [done | apply example_m4_step].
Qed.


(** After the removal in the example run the live points have
    log-likelihoods 1/2 and 1, the threshold is 0. *)
Lemma live_points_above_threshold_example :
  (∀ L i p,
     threshold (run example_m4) = Some L →
     live_points (run example_m4) !! i = Some p →
     L <= log_likelihood p) ∧
  (state example_m4 = INITIALIZING → threshold (run example_m4) = None).
Proof.
  apply (live_points_above_threshold example_setting example_m4).
  exact example_m4_reachable.
Defined.

(** The removal in the example run: two live points, the volume shrinks
    by exp(-1/2). *)
Lemma log_volume_strictly_decreases_example :
  let N := size (live_points (run example_m3)) in
  (0 < N)%nat ∧
  log_volume_estimate (run example_m4)
    = log_volume_estimate (run example_m3) - 1 / INR N ∧
  exp (log_volume_estimate (run example_m4))
    = exp (- (1 / INR N)) * exp (log_volume_estimate (run example_m3)) ∧
  exp (- (1 / INR N)) < 1 ∧
  log_volume_estimate (run example_m4) < log_volume_estimate (run example_m3).
Proof.
  apply (proj1 (log_volume_strictly_decreases example_setting)
           example_m3 example_m4).
  - exact example_m4_step.
  - cbn. discriminate.
Defined.



















End SamplerExamples.

(** * Further properties of the notebook's functions *)

(** ** The model in exact arithmetic *)

Lemma sin_period_Z (x : R) (k : Z) : sin (x + 2 * IZR k * PI) = sin x.
Proof.
  destruct k as [| p | p].
  - f_equal. lra.
  - replace (IZR (Z.pos p)) with (INR (Pos.to_nat p))
      by (by rewrite INR_IZR_INZ, positive_nat_Z).
    apply sin_period.
  - rewrite <- (sin_period (x + 2 * IZR (Z.neg p) * PI) (Pos.to_nat p)).
    f_equal.
    replace (INR (Pos.to_nat p)) with (IZR (Z.pos p))
      by (by rewrite INR_IZR_INZ, positive_nat_Z).
    change (Z.neg p) with (- Z.pos p)%Z. rewrite opp_IZR. lra.
Qed.

(** X1: the model stays within the amplitude of the offset: for all
    arguments, B - |A| <= sine_model(t, B, A, P, t0) <= B + |A|. *)
Theorem sine_model_within_amplitude (t B A P t0 : R) :
  B - Rabs A <= sine_model t B A P t0 <= B + Rabs A.
Proof.
  unfold sine_model. cbn.
  pose proof (SIN_bound ((t / P + t0) * 2 * PI)) as Hs.
  unfold Rabs. destruct (Rcase_abs A); split; nra.
Qed.

(** X2: P is the period of the model in time: for a non-zero P and every
    integer k, sine_model(t + k*P, B, A, P, t0) = sine_model(t, B, A, P,
    t0). *)
Theorem sine_model_period_in_time (t B A P t0 : R) (k : Z) :
  P ≠ 0 →
  sine_model (t + IZR k * P) B A P t0 = sine_model t B A P t0.
Proof.
  intros HP. unfold sine_model. cbn.
  replace (((t + IZR k * P) / P + t0) * 2 * PI)
    with ((t / P + t0) * 2 * PI + 2 * IZR k * PI) by (field; done).
  by rewrite sin_period_Z.
Qed.

(** X3: in exact arithmetic, half a turn of the phase mirrors the model
    about the offset, and that is what a change of sign of the amplitude
    does: sine_model(t, B, A, P, t0 + 1/2)
    = 2*B - sine_model(t, B, A, P, t0) = sine_model(t, B, -A, P, t0). *)
Theorem sine_model_half_turn (t B A P t0 : R) :
  sine_model t B A P (t0 + 1 / 2) = 2 * B - sine_model t B A P t0 ∧
  sine_model t B (- A) P t0 = sine_model t B A P (t0 + 1 / 2).
Proof.
  unfold sine_model. cbn.
  replace ((t / P + (t0 + 1 / 2)) * 2 * PI)
    with ((t / P + t0) * 2 * PI + PI) by lra.
  rewrite neg_sin. split; lra.
Qed.

(** ** The prior transform on arrays of any length *)

Section Transform_any_length.
Context {T : Type} `{Arith T}.
Implicit Types (h : gmap positive (list T)) (cube : positive) (v : list T).
Local Open Scope np_scope.

Lemma getitem_raise h a v i :
  h !! a = Some v → v !! i = None → getitem a i h = (Raise IndexError, h).
Proof. unfold getitem. by intros -> ->. Qed.

Lemma prior_transform_short h cube v :
  h !! cube = Some v → (length v < 4)%nat →
  (prior_transform cube h).1 = Raise IndexError.
Proof.
  intros Hc Hlen. unfold prior_transform.
  set (p := fresh (dom h)).
  assert (Hp : p ≠ cube) by (by eapply fresh_not_alive).
  erewrite bind_ok; [| by apply ndarray_copy_ok]. fold p.
  destruct v as [| c0 [| c1 [| c2 [| c3 [| ? ?]]]]]; cbn in Hlen; try lia;
    repeat first
      [ erewrite bind_raise;
          [done | eapply getitem_raise; [by rewrite lookup_insert_ne | done]]
      | erewrite bind_ok;
          [| first
               [ eapply getitem_ok; [by rewrite lookup_insert_ne | done]
               | eapply setitem_ok; [by rewrite lookup_insert_eq | simpl; lia] ]];
        rewrite ?insert_insert_eq; simpl ].
Qed.

Lemma prior_transform_long h cube v :
  h !! cube = Some v → (4 ≤ length v)%nat →
  ∃ c0 c1 c2 c3 rest,
    v = c0 :: c1 :: c2 :: c3 :: rest ∧
    prior_transform cube h =
      (Ok (fresh (dom h)),
       <[fresh (dom h) :=
           c0 * lit 20 - lit 10
           :: np_pow10 (c1 * lit 4 - lit 2)
           :: np_pow10 (c2 * lit 2)
           :: c3 :: rest]> h).
Proof.
  intros Hc Hlen.
  destruct v as [| c0 [| c1 [| c2 [| c3 rest]]]]; cbn in Hlen; try lia.
  exists c0, c1, c2, c3, rest. split; [done |].
  by apply prior_transform_run.
Qed.

(** X4: prior_transform raises IndexError exactly on arrays of fewer than
    four entries; on all others it returns. *)
Theorem prior_transform_index_error h cube v :
  h !! cube = Some v →
  ((prior_transform cube h).1 = Raise IndexError ↔ (length v < 4)%nat) ∧
  ((∃ p, (prior_transform cube h).1 = Ok p) ↔ (4 ≤ length v)%nat).
Proof.
  intros Hc.
  destruct (decide (length v < 4)%nat) as [Hlt | Hge].
  - pose proof (prior_transform_short h cube v Hc Hlt) as Hr.
    split; split; try done; try lia.
    intros [p Hp]. rewrite Hr in Hp. discriminate Hp.
  - destruct (prior_transform_long h cube v Hc ltac:(lia))
      as (c0 & c1 & c2 & c3 & rest & -> & Hr).
    split; split; try lia.
    + rewrite Hr. discriminate.
    + intros _. eexists. by rewrite Hr.
Qed.

(** X5: the array that prior_transform returns has the length of its
    argument, and its entries from the fourth on are those of the
    argument. *)
Theorem prior_transform_keeps_length h cube v p :
  h !! cube = Some v →
  (prior_transform cube h).1 = Ok p →
  ∃ out,
    (prior_transform cube h).2 !! p = Some out ∧
    length out = length v ∧
    ∀ i, (3 ≤ i)%nat → out !! i = v !! i.
Proof.
  intros Hc Hp.
  destruct (decide (length v < 4)%nat) as [Hlt | Hge].
  { rewrite (prior_transform_short h cube v Hc Hlt) in Hp. discriminate Hp. }
  destruct (prior_transform_long h cube v Hc ltac:(lia))
    as (c0 & c1 & c2 & c3 & rest & -> & Hr).
  rewrite Hr in Hp |- *. injection Hp as <-.
  eexists. split; [apply lookup_insert_eq |]. split; [done |].
  intros i Hi. by destruct i as [| [| [| i]]]; [lia | lia | lia |].
Qed.

(** X6: the arrays that two calls return are different from each other and
    from the argument, and writing to the first leaves the second and the
    argument as they are. *)
Theorem prior_transform_results_apart h cube v p1 h1 p2 h2 i x :
  h !! cube = Some v →
  prior_transform cube h = (Ok p1, h1) →
  prior_transform cube h1 = (Ok p2, h2) →
  p1 ≠ p2 ∧ p1 ≠ cube ∧ p2 ≠ cube ∧
  (setitem p1 i x h2).2 !! p2 = h2 !! p2 ∧
  (setitem p1 i x h2).2 !! cube = Some v.
Proof.
  intros Hc H1 H2.
  assert (Hp1 : p1 = fresh (dom h)).
  { apply (prior_transform_returns_new h cube). by rewrite H1. }
  assert (Hp2 : p2 = fresh (dom h1)).
  { apply (prior_transform_returns_new h1 cube). by rewrite H2. }
  assert (Hc1 : h1 !! cube = Some v).
  { pose proof (prior_transform_frame h cube cube v Hc) as Hf.
    by rewrite H1 in Hf. }
  assert (Hc2 : h2 !! cube = Some v).
  { pose proof (prior_transform_frame h1 cube cube v Hc1) as Hf.
    by rewrite H2 in Hf. }
  assert (Hlive : is_Some (h1 !! p1)).
  { destruct (decide (length v < 4)%nat) as [Hlt | Hge].
    - pose proof (prior_transform_short h cube v Hc Hlt) as Hr.
      rewrite H1 in Hr. discriminate Hr.
    - destruct (prior_transform_long h cube v Hc ltac:(lia))
        as (c0 & c1 & c2 & c3 & rest & -> & Hr).
      rewrite H1 in Hr. injection Hr as -> ->.
      rewrite lookup_insert_eq. by eexists. }
  assert (Hne12 : p1 ≠ p2).
  { intros Heq. destruct Hlive as [w Hw].
    apply (fresh_not_alive h1 p1 w Hw). congruence. }
  assert (Hne1 : p1 ≠ cube) by (subst p1; by eapply fresh_not_alive).
  assert (Hne2 : p2 ≠ cube) by (subst p2; by eapply fresh_not_alive).
  split; [done |]. split; [done |]. split; [done |].
  split.
  - destruct (h2 !! p2) as [w |] eqn:Hw.
    + apply (modifies_only_setitem p1 i x h2 p2 w); [congruence | done].
    + unfold setitem. destruct (h2 !! p1); [| done].
      case_decide; [| done]. cbn. by rewrite lookup_insert_ne.
  - apply (modifies_only_setitem p1 i x h2 cube v); [congruence | done].
Qed.

End Transform_any_length.

(** ** The likelihood: when it raises, and what it leaves alone *)

Section Likelihood_errors.
Context {T : Type} `{Arith T}.
Implicit Types (h : gmap positive (list T)) (params : positive).
Local Open Scope np_scope.

Lemma broadcast2_ok (f : T → T → T) (a b : list T) :
  length a = length b ∨ length a = 1%nat ∨ length b = 1%nat →
  ∃ l, broadcast2 f a b = Ok l.
Proof.
  intros Hl. unfold broadcast2. case_decide; [by eexists |].
  destruct a as [| x [| ? ?]]; destruct b as [| z [| ? ?]];
    cbn in *; first [exfalso; lia | eexists; reflexivity].
Qed.

Lemma broadcast2_raise (f : T → T → T) (a b : list T) :
  length a ≠ length b → length a ≠ 1%nat → length b ≠ 1%nat →
  broadcast2 f a b = Raise ValueError.
Proof.
  intros Hab Ha Hb. unfold broadcast2. case_decide; [done |].
  destruct a as [| x [| ? ?]]; destruct b as [| z [| ? ?]]; cbn in *; done.
Qed.

(** What [log_likelihood] returns on four parameters. *)
Lemma log_likelihood_result (t y : list T) h params B A P t0 :
  h !! params = Some [B; A; P; t0] →
  log_likelihood t y params h =
    (match broadcast2 np_sub (map (λ ti, sine_model ti B A P t0) t) y with
     | Ok d => Ok (lit (- 0.5) * np_sum (map (λ x, np_square (x / yerr)) d))
     | Raise e => Raise e
     end, h).
Proof.
  intros Hp. unfold log_likelihood.
  erewrite bind_ok; [| unfold unpack4; by rewrite Hp].
  unfold mbind, py_bind, lift.
  by destruct (broadcast2 _ _ _).
Qed.

Lemma log_likelihood_unpack_error (t y : list T) h params v :
  h !! params = Some v → length v ≠ 4%nat →
  log_likelihood t y params h = (Raise ValueError, h).
Proof.
  intros Hp Hlen. unfold log_likelihood.
  erewrite bind_raise; [done |]. unfold unpack4. rewrite Hp.
  by destruct v as [| ? [| ? [| ? [| ? [| ? ?]]]]].
Qed.

(** X7: log_likelihood returns a number exactly when it is given four
    parameters and the times and the measurements have the same length, or
    one of them has length one; otherwise it raises ValueError. *)
Theorem log_likelihood_value_error (t y : list T) h params v :
  h !! params = Some v →
  let fits :=
    length v = 4%nat ∧
    (length t = length y ∨ length t = 1%nat ∨ length y = 1%nat) in
  ((∃ L, (log_likelihood t y params h).1 = Ok L) ↔ fits) ∧
  ((log_likelihood t y params h).1 = Raise ValueError ↔ ¬ fits).
Proof.
  intros Hp fits.
  destruct (decide (length v = 4%nat)) as [Hv | Hv].
  - destruct v as [| B [| A [| P [| t0 [| ? ?]]]]]; try discriminate Hv.
    rewrite (log_likelihood_result t y h params B A P t0 Hp). cbn [fst].
    set (ym := map _ t).
    assert (Hym : length ym = length t) by apply length_map.
    destruct (decide (length t = length y ∨ length t = 1%nat
                      ∨ length y = 1%nat)) as [Hl | Hl].
    + assert (Hl' : length ym = length y ∨ length ym = 1%nat
                    ∨ length y = 1%nat) by (by rewrite Hym).
      destruct (broadcast2_ok np_sub ym y Hl') as [d ->].
      split; split; try done.
      * by eexists.
      * intros Hnot. by destruct Hnot.
    + rewrite (broadcast2_raise np_sub ym y); [| rewrite Hym; tauto ..| tauto].
      split; split; try done.
      * intros [L HL]. discriminate HL.
      * intros [_ Hfit]. done.
      * intros _ [_ Hfit]. done.
  - rewrite (log_likelihood_unpack_error t y h params v Hp Hv). cbn [fst].
    split; split; try done.
    + intros [L HL]. discriminate HL.
    + intros [Hfit _]. done.
    + intros _ [Hfit _]. done.
Qed.

(** X8: log_likelihood writes nothing: whatever it is given, and whether
    it returns or raises, the store after the call is the store before it. *)
Theorem log_likelihood_read_only (t y : list T) h params :
  (log_likelihood t y params h).2 = h.
Proof.
  unfold log_likelihood, mbind, py_bind, unpack4.
  destruct (h !! params) as [[| B [| A [| P [| t0 [| ? ?]]]]] |]; try done.
  unfold lift. by destruct (broadcast2 _ _ _).
Qed.

End Likelihood_errors.

(** ** The likelihood in exact arithmetic *)

Section Likelihood_exact.
Implicit Types (h : gmap positive (list R)) (params : positive) (t y : list R).

(** One term of the chi-square sum. *)
Lemma residual_exact (m yi : R) :
  np_square (np_div (np_sub m yi) yerr) = (m - yi) * (m - yi).
Proof. unfold np_square, yerr. cbn. field. Qed.

Lemma np_sum_exact (l : list R) : np_sum l = Rsum l.
Proof.
  unfold np_sum. cbn.
  assert (Hacc : ∀ acc, fold_left Rplus l acc = acc + Rsum l).
  { induction l as [| x l IH]; intros acc; [cbn; lra |].
    change (fold_left Rplus l (acc + x) = acc + (x + Rsum l)).
    rewrite IH. lra. }
  rewrite Hacc. lra.
Qed.

Lemma Rsum_app (l1 l2 : list R) : Rsum (l1 ++ l2) = Rsum l1 + Rsum l2.
Proof.
  induction l1 as [| x l1 IH]; [change (Rsum l2 = 0 + Rsum l2); lra |].
  change (x + Rsum (l1 ++ l2) = x + Rsum l1 + Rsum l2). rewrite IH. lra.
Qed.

Lemma Rsum_permutation (l1 l2 : list R) : l1 ≡ₚ l2 → Rsum l1 = Rsum l2.
Proof.
  induction 1 as [| x l1 l2 _ IH | x z l | l1 l2 l3 _ IH1 _ IH2].
  - done.
  - change (x + Rsum l1 = x + Rsum l2). by rewrite IH.
  - change (z + (x + Rsum l) = x + (z + Rsum l)). lra.
  - congruence.
Qed.

(** The chi-square terms, as a function of the pairs of a time and a
    measurement. *)
Lemma residuals_zip (B A P t0 : R) t y :
  map (λ x, np_square (np_div x yerr))
    (zip_with np_sub (map (λ ti, sine_model ti B A P t0) t) y)
  = map (λ p, (sine_model p.1 B A P t0 - p.2) * (sine_model p.1 B A P t0 - p.2))
      (zip t y).
Proof.
  revert y. induction t as [| ti t IH]; intros [| yi y]; cbn; try done.
  f_equal; [apply residual_exact | apply IH].
Qed.

Lemma log_likelihood_exact t y h params (B A P t0 : R) :
  h !! params = Some [B; A; P; t0] → length t = length y →
  log_likelihood t y params h =
    (Ok (- 0.5 *
         Rsum (map (λ p, (sine_model p.1 B A P t0 - p.2)
                         * (sine_model p.1 B A P t0 - p.2)) (zip t y))),
     h).
Proof.
  intros Hp Hlen.
  rewrite (log_likelihood_run t y h params B A P t0 Hp Hlen).
  by rewrite np_sum_exact, residuals_zip.
Qed.

Lemma squares_sum (f : R * R → R) (l : list (R * R)) :
  0 <= Rsum (map (λ p, f p * f p) l) ∧
  (Rsum (map (λ p, f p * f p) l) = 0 ↔ Forall (λ p, f p = 0) l).
Proof.
  induction l as [| p l [IH0 IH]].
  - cbn. split; [lra |]. split; [constructor | done].
  - change (Rsum (map (λ p, f p * f p) (p :: l)))
      with (f p * f p + Rsum (map (λ p, f p * f p) l)).
    split; [nra |]. split.
    + intros Hs. assert (f p * f p = 0) by nra.
      constructor; [nra |]. apply IH. nra.
    + intros [Hp Hl]%Forall_cons. apply IH in Hl. rewrite Hp, Hl. lra.
Qed.

(** X9: the log-likelihood is never positive, and it is zero exactly when
    the model passes through every measurement (so also when there is no
    measurement at all). *)
Theorem log_likelihood_nonpositive t y h params (B A P t0 : R) :
  h !! params = Some [B; A; P; t0] → length t = length y →
  ∃ L, log_likelihood t y params h = (Ok L, h) ∧
       L <= 0 ∧
       (L = 0 ↔ Forall2 (λ ti yi, sine_model ti B A P t0 = yi) t y).
Proof.
  intros Hp Hlen. eexists.
  split; [by apply log_likelihood_exact |].
  destruct (squares_sum (λ p, sine_model p.1 B A P t0 - p.2) (zip t y))
    as [H0 Hiff].
  cbn beta in *. split; [lra |].
  transitivity (Forall (λ p : R * R, sine_model p.1 B A P t0 - p.2 = 0)
                  (zip t y)).
  - rewrite <- Hiff. split; lra.
  - clear H0 Hiff Hp. revert y Hlen.
    induction t as [| ti t IH]; intros [| yi y] Hlen; try discriminate Hlen.
    + split; constructor.
    + cbn. rewrite Forall_cons. split.
      * intros [Hh Ht]. constructor; [cbn in Hh; lra |].
        apply IH; [by injection Hlen | done].
      * intros Hf. inversion Hf; subst. split; [cbn; lra |].
        apply IH; [by injection Hlen | done].
Qed.

(** X10: the log-likelihood of two sets of observations taken together is
    the sum of their log-likelihoods. *)
Theorem log_likelihood_additive t1 y1 t2 y2 h params (B A P t0 : R) :
  h !! params = Some [B; A; P; t0] →
  length t1 = length y1 → length t2 = length y2 →
  ∃ L1 L2,
    log_likelihood t1 y1 params h = (Ok L1, h) ∧
    log_likelihood t2 y2 params h = (Ok L2, h) ∧
    log_likelihood (t1 ++ t2) (y1 ++ y2) params h = (Ok (L1 + L2), h).
Proof.
  intros Hp H1 H2. do 2 eexists.
  split; [by apply log_likelihood_exact |].
  split; [by apply log_likelihood_exact |].
  rewrite (log_likelihood_exact (t1 ++ t2) (y1 ++ y2) h params B A P t0 Hp)
    by (rewrite !length_app; congruence).
  do 2 f_equal.
  rewrite zip_with_app by done. rewrite map_app, Rsum_app. lra.
Qed.

(** X11: the log-likelihood does not depend on the order of the
    observations: reordering the pairs of a time and its measurement
    leaves it as it is. *)
Theorem log_likelihood_order t y t' y' h params (B A P t0 : R) :
  h !! params = Some [B; A; P; t0] →
  length t = length y → length t' = length y' →
  zip t y ≡ₚ zip t' y' →
  log_likelihood t y params h = log_likelihood t' y' params h.
Proof.
  intros Hp Hl Hl' Hperm.
  rewrite (log_likelihood_exact t y h params B A P t0 Hp Hl).
  rewrite (log_likelihood_exact t' y' h params B A P t0 Hp Hl').
  do 3 f_equal. apply Rsum_permutation. by apply Permutation_map.
Qed.

(** X12: the likelihood is the same at both ends of the wrapped
    coordinate: the cubes (c0, c1, c2, c3) and (c0, c1, c2, c3 + 1) are
    transformed to parameters with the same log-likelihood, on any data. *)
Theorem likelihood_wraps t y h cube cube' (c0 c1 c2 c3 : R) :
  h !! cube = Some [c0; c1; c2; c3] →
  h !! cube' = Some [c0; c1; c2; c3 + 1] →
  ((prior_transform cube ≫= log_likelihood t y) h).1
  = ((prior_transform cube' ≫= log_likelihood t y) h).1.
Proof.
  intros Hc Hc'.
  erewrite bind_ok; [| by apply prior_transform_run].
  erewrite (bind_ok (prior_transform cube')); [| by apply prior_transform_run].
  erewrite !log_likelihood_result by apply lookup_insert_eq.
  cbn [fst].
  replace (map (λ ti, sine_model ti _ _ _ (c3 + 1)) t)
    with (map (λ ti, sine_model ti (np_sub (np_mul c0 (lit 20)) (lit 10))
                       (np_pow10 (np_sub (np_mul c1 (lit 4)) (lit 2)))
                       (np_pow10 (np_mul c2 (lit 2))) c3) t); [done |].
  apply map_ext. intros ti. symmetry. apply sine_model_shift_t0.
Qed.

End Likelihood_exact.

(** ** The prior transform in exact arithmetic *)

Lemma Rpower10_inj (x z : R) : Rpower 10 x = Rpower 10 z → x = z.
Proof.
  intros Heq. destruct (Rtotal_order x z) as [Hlt | [-> | Hgt]]; [| done |].
  - pose proof (Rpower_lt 10 x z ltac:(lra) Hlt). lra.
  - pose proof (Rpower_lt 10 z x ltac:(lra) Hgt). lra.
Qed.

(** X13: prior_transform is one-to-one: two arguments that are transformed
    to arrays with the same contents have the same contents. *)
Theorem prior_transform_injective
    (h : gmap positive (list R)) cube cube' (v v' out : list R) p p' h1 h1' :
  h !! cube = Some v → h !! cube' = Some v' →
  prior_transform cube h = (Ok p, h1) → h1 !! p = Some out →
  prior_transform cube' h = (Ok p', h1') → h1' !! p' = Some out →
  v = v'.
Proof.
  intros Hc Hc' Hr Hout Hr' Hout'.
  destruct (decide (length v < 4)%nat) as [Hlt | Hge].
  { pose proof (prior_transform_short h cube v Hc Hlt) as He.
    rewrite Hr in He. discriminate He. }
  destruct (decide (length v' < 4)%nat) as [Hlt' | Hge'].
  { pose proof (prior_transform_short h cube' v' Hc' Hlt') as He.
    rewrite Hr' in He. discriminate He. }
  destruct (prior_transform_long h cube v Hc ltac:(lia))
    as (c0 & c1 & c2 & c3 & rest & -> & Hv).
  destruct (prior_transform_long h cube' v' Hc' ltac:(lia))
    as (d0 & d1 & d2 & d3 & rest' & -> & Hv').
  rewrite Hr in Hv. injection Hv as -> ->.
  rewrite Hr' in Hv'. injection Hv' as -> ->.
  rewrite lookup_insert_eq in Hout, Hout'.
  rewrite <- Hout' in Hout. injection Hout as H0 H1 H2 -> ->.
  cbn in H0, H1, H2.
  apply Rpower10_inj in H1, H2.
  f_equal; [lra |]. f_equal; [lra |]. f_equal. lra.
Qed.

(** ** The prior transform and the likelihood in binary64, continued *)

Section Binary64_more.
Context (RND : Rounding).
#[local] Existing Instance float64_arith.
Implicit Types (h : gmap positive (list float64)) (cube : positive).
Local Open Scope np_scope.

Lemma offset_value (c : R) :
  (0 <= c <= 1)%R →
  (Fin c * lit 20 - lit 10) = Fin (rnd (rnd (c * 20) - 10)).
Proof.
  intros Hc. cbn. rewrite (pack_small RND 20), (pack_small RND 10) by done.
  destruct (pack_between RND 0 20 (c * 20)%R) as [-> Hb];
    [done | done | lra |].
  cbn. by destruct (pack_between RND (-10) 10 (rnd (c * 20) - 10)%R)
    as [-> _]; [done | done | lra |].
Qed.

Lemma amplitude_value (c : R) :
  (0 <= c <= 1)%R →
  np_pow10 (Fin c * lit 4 - lit 2)
  = Fin (rnd (Rpower 10 (rnd (rnd (c * 4) - 2)))) ∧
  (-2 <= rnd (rnd (c * 4) - 2) <= 2)%R.
Proof.
  intros Hc. cbn. rewrite (pack_small RND 4), (pack_small RND 2) by done.
  destruct (pack_between RND 0 4 (c * 4)%R) as [-> Hb];
    [done | done | lra |].
  cbn. destruct (pack_between RND (-2) 2 (rnd (c * 4) - 2)%R)
    as [-> Hb2]; [done | done | lra |].
  cbn. split; [| done].
  destruct (pack_between RND 0 100 (Rpower 10 (rnd (rnd (c * 4) - 2))))
    as [-> _]; [done | done | | done].
  split; [left; apply exp_pos |].
  rewrite <- pow10_2. apply Rle_Rpower; lra.
Qed.

Lemma period_value (c : R) :
  (0 <= c <= 1)%R →
  np_pow10 (Fin c * lit 2) = Fin (rnd (Rpower 10 (rnd (c * 2)))) ∧
  (0 <= rnd (c * 2) <= 2)%R.
Proof.
  intros Hc. cbn. rewrite (pack_small RND 2) by done.
  destruct (pack_between RND 0 2 (c * 2)%R) as [-> Hb];
    [done | done | lra |].
  cbn. split; [| done].
  destruct (pack_between RND 0 100 (Rpower 10 (rnd (c * 2))))
    as [-> _]; [done | done | | done].
  split; [left; apply exp_pos |].
  rewrite <- pow10_2. apply Rle_Rpower; lra.
Qed.

Lemma rnd_hundredth_pos : (0 < rnd (1 / 100))%R.
Proof.
  assert (Hr : representable (1 / 128)).
  { exists 1%Z, (-7)%Z. repeat split; [done | lia |].
    change (powerRZ 2 (-7)) with (/ (2 * (2 * (2 * (2 * (2 * (2 * (2 * 1))))))))%R.
    lra. }
  pose proof (rnd_mono (1 / 128) (1 / 100) ltac:(lra)) as Hm.
  rewrite (rnd_repr _ Hr) in Hm. lra.
Qed.

Lemma pow10_minus_2 : Rpower 10 (- 2) = (1 / 100)%R.
Proof.
  replace (- 2)%R with (Ropp 2) by lra.
  rewrite Rpower_Ropp, pow10_2. lra.
Qed.

Lemma fle_intro (x z : R) : (x <= z)%R → fle (Fin x) (Fin z).
Proof. intros Hxz. by exists x, z. Qed.

(** X14: on [0,1]^4 the offset that prior_transform returns lies between
    the float64s -10 and 10, the amplitude between the float64s 0.01 and
    100 (so it is positive), and the time offset is cube[3] itself. *)
Theorem prior_ranges h cube (c0 c1 c2 c3 : float64) :
  h !! cube = Some [c0; c1; c2; c3] → unit_cube [c0; c1; c2; c3] →
  ∃ p h' B A P t0,
    prior_transform cube h = (Ok p, h') ∧
    h' !! p = Some [B; A; P; t0] ∧
    fle (lit (- 10)) B ∧ fle B (lit 10) ∧
    fle (lit (1 / 100)) A ∧ fle A (lit 100) ∧
    (∃ a, A = Fin a ∧ (0 < a)%R) ∧
    t0 = c3.
Proof.
  intros Hc Hv.
  destruct (unit_cube_inv _ Hv)
    as (? & ? & ? & ? & [= <- <- <- <-] & H0 & H1 & H2 & H3).
  do 6 eexists.
  split; [by apply prior_transform_run |].
  split; [apply lookup_insert_eq |].
  destruct H0 as (r0 & -> & Hr0). destruct H1 as (r1 & -> & Hr1).
  rewrite (offset_value r0 Hr0).
  destruct (amplitude_value r1 Hr1) as [-> Hu].
  cbn [lit float64_arith].
  rewrite (pack_small RND (-10)), (pack_small RND 10),
    (pack_small RND 100) by done.
  destruct (pack_between RND 0 1 (1 / 100)%R) as [-> _];
    [done | done | lra |].
  assert (Hoff : (-10 <= rnd (rnd (r0 * 20) - 10) <= 10)%R).
  { pose proof (offset_between RND (Fin r0) ltac:(by exists r0)) as Hb.
    rewrite (offset_value r0 Hr0) in Hb.
    destruct Hb as (b & [= <-] & Hb). done. }
  assert (Hamp : (rnd (1 / 100)
                  <= rnd (Rpower 10 (rnd (rnd (r1 * 4) - 2))) <= 100)%R).
  { split.
    - apply rnd_mono. rewrite <- pow10_minus_2. apply Rle_Rpower; lra.
    - rewrite <- (rnd_small RND 100) by done. apply rnd_mono.
      rewrite <- pow10_2. apply Rle_Rpower; lra. }
  pose proof rnd_hundredth_pos as Hpos.
  repeat (split; [apply fle_intro; lra |]).
  split; [| done]. eexists. split; [done | lra].
Qed.

(** X15: rounding keeps the prior transform monotone: if every entry of
    one point of the unit hypercube is at most the entry of another, the
    same holds of the parameters they are transformed to. *)
Theorem prior_transform_monotone h cube cube' (v v' : list float64) :
  h !! cube = Some v → h !! cube' = Some v' →
  unit_cube v → unit_cube v' → Forall2 fle v v' →
  ∃ p h1 out p' h1' out',
    prior_transform cube h = (Ok p, h1) ∧ h1 !! p = Some out ∧
    prior_transform cube' h = (Ok p', h1') ∧ h1' !! p' = Some out' ∧
    Forall2 fle out out'.
Proof.
  intros Hc Hc' Hv Hv' Hle.
  destruct (unit_cube_inv _ Hv)
    as (c0 & c1 & c2 & c3 & -> & H0 & H1 & H2 & H3).
  destruct (unit_cube_inv _ Hv')
    as (d0 & d1 & d2 & d3 & -> & K0 & K1 & K2 & K3).
  do 6 eexists.
  split; [by apply prior_transform_run |].
  split; [apply lookup_insert_eq |].
  split; [by apply prior_transform_run |].
  split; [apply lookup_insert_eq |].
  apply Forall2_cons in Hle as [L0 Hle].
  apply Forall2_cons in Hle as [L1 Hle].
  apply Forall2_cons in Hle as [L2 Hle].
  apply Forall2_cons in Hle as [L3 _].
  destruct H0 as (x0 & -> & Hx0). destruct K0 as (z0 & -> & Hz0).
  destruct H1 as (x1 & -> & Hx1). destruct K1 as (z1 & -> & Hz1).
  destruct H2 as (x2 & -> & Hx2). destruct K2 as (z2 & -> & Hz2).
  destruct L0 as (? & ? & [= <-] & [= <-] & L0).
  destruct L1 as (? & ? & [= <-] & [= <-] & L1).
  destruct L2 as (? & ? & [= <-] & [= <-] & L2).
  rewrite !offset_value by done.
  destruct (amplitude_value x1 Hx1) as [-> _].
  destruct (amplitude_value z1 Hz1) as [-> _].
  destruct (period_value x2 Hx2) as [-> _].
  destruct (period_value z2 Hz2) as [-> _].
  repeat apply Forall2_cons_2; [| | | done | constructor].
  - apply fle_intro, rnd_mono.
    pose proof (rnd_mono (x0 * 20) (z0 * 20) ltac:(lra)). lra.
  - apply fle_intro, rnd_mono. apply Rle_Rpower; [lra |]. apply rnd_mono.
    pose proof (rnd_mono (x1 * 4) (z1 * 4) ltac:(lra)). lra.
  - apply fle_intro, rnd_mono. apply Rle_Rpower; [lra |]. apply rnd_mono.
    lra.
Qed.

Lemma sine_model_zero_period (r : R) (B A t0 : float64) :
  finite t0 → sine_model (Fin r) B A (Fin 0) t0 = NaN.
Proof.
  intros (r0 & -> & _). unfold sine_model. cbn.
  destruct (Req_dec_T 0 0) as [Hz | Hz]; [clear Hz | done].
  destruct (pi_between RND) as (p & Hp & Hpi).
  destruct (total_order_T 0 r) as [[Hz | Hz] | Hz]; cbn;
    rewrite ?(pack_small RND 2) by done; cbn; unfold inf_times;
    try (destruct (total_order_T 0 2) as [[Hz2 | Hz2] | Hz2];
         [clear Hz2 | lra | lra]);
    rewrite ?Hp; cbn; unfold inf_times;
    try (destruct (total_order_T 0 p) as [[Hzp | Hzp] | Hzp];
         [clear Hzp | lra | lra]);
    cbn; by destruct A.
Qed.

Lemma fold_fadd_nan (l : list float64) (acc : float64) :
  Forall (λ x, x = NaN) l → l ≠ [] → fold_left (fadd RND) l acc = NaN.
Proof.
  intros Hl Hne. destruct Hl as [| x l -> Hl]; [done |]. cbn.
  assert (Hacc : fadd RND acc NaN = NaN) by (by destruct acc).
  rewrite Hacc. clear Hne Hacc.
  induction Hl as [| x l -> Hl IH]; [done |]. by cbn.
Qed.

(** X16: a period of zero does not raise: on any observations at finite
    times (at least one), log_likelihood returns NaN. *)
Theorem zero_period_gives_nan (t y : list float64) h params (B A t0 : float64) :
  h !! params = Some [B; A; Fin 0; t0] → finite t0 →
  t ≠ [] → length t = length y →
  Forall (λ ti, ∃ r, ti = Fin r) t →
  log_likelihood t y params h = (Ok NaN, h).
Proof.
  intros Hp Ht0 Hne Hlen Ht.
  rewrite (log_likelihood_run t y h params B A (Fin 0) t0 Hp Hlen).
  do 2 f_equal.
  set (terms := map _ _).
  assert (Hterms : Forall (λ x, x = NaN) terms ∧ terms ≠ []).
  { unfold terms. clear terms Hp. revert y Hlen.
    induction Ht as [| ti t [r ->] Ht IH]; intros [| yi y] Hlen;
      try discriminate Hlen; [done |].
    cbn [map zip_with]. rewrite sine_model_zero_period by done.
    split; [| done]. constructor.
    - unfold np_square, yerr. cbn. by destruct (pack RND 1).
    - destruct t as [| t1 t]; [destruct y; [constructor | done] |].
      apply IH; [done | by injection Hlen]. }
  destruct Hterms as [Hnan Hne'].
  unfold np_sum. rewrite (fold_fadd_nan terms _ Hnan Hne').
  cbn. by destruct (pack RND (- 0.5)).
Qed.

(** X17: for every cube in [0,1]^4 the log-likelihood of the transformed
    parameters is at most 0 and at least -n_data * (110 + Y)^2, Y a bound
    on the measurements. *)
Theorem log_likelihood_of_prior_transform_bounds
    (Y : Z) (t y : list float64) h cube (v : list float64) :
  (0 ≤ Y)%Z → small (Z.of_nat n_data * ((110 + Y) * (110 + Y))) →
  observations Y t y →
  h !! cube = Some v → unit_cube v →
  ∃ L, ((prior_transform cube ≫= log_likelihood t y) h).1 = Ok (Fin L) ∧
       (- (INR n_data * ((110 + IZR Y) * (110 + IZR Y))) <= L <= 0)%R.
Proof.
  intros HY Hs Hobs Hc Hv.
  destruct (unit_cube_inv v Hv) as (c0 & c1 & c2 & c3 & -> & H0 & H1 & H2 & H3).
  erewrite bind_ok; [| by apply prior_transform_run].
  edestruct (log_likelihood_between RND Y t y) as (L & -> & (l & -> & Hl));
    [done | done | done | apply lookup_insert_eq
    | by apply offset_between | by apply amplitude_between
    | by apply period_between | done |].
  exists l. split; [done |].
  rewrite opp_IZR, !mult_IZR, !plus_IZR, <- INR_IZR_INZ in Hl. done.
Qed.

End Binary64_more.

(** ** Examples for the further properties *)

Lemma sine_model_period_in_time_example :
  sine_model (1 + 2 * 3) 0 1 3 0 = sine_model 1 0 1 3 0.
Proof. apply (sine_model_period_in_time 1 0 1 3 0 2). lra. Defined.

Lemma example_store_exact_1 :
  example_store_exact !! 1%positive = Some [1 / 2; 1 / 4; 1; 0].
Proof. done. Qed.

Lemma example_store_exact_2 :
  example_store_exact !! 2%positive = Some [1 / 2; 1 / 4; 1; 0 + 1].
Proof. done. Qed.

Lemma example_store_exact_3 :
  example_store_exact !! 3%positive = Some [1 / 2; 1 / 4].
Proof. done. Qed.

Lemma example_store_exact_4 :
  example_store_exact !! 4%positive = Some [1 / 2; 1 / 4; 1; 0; 7].
Proof. done. Qed.

Lemma example_params_exact_1 :
  example_params_exact !! 1%positive = Some [1; 2; 3; 0].
Proof. done. Qed.

(** An array of two entries. *)
Lemma prior_transform_index_error_example :
  ((prior_transform 3%positive example_store_exact).1 = Raise IndexError
   ↔ (length [1 / 2; 1 / 4]%R < 4)%nat) ∧
  ((∃ p, (prior_transform 3%positive example_store_exact).1 = Ok p)
   ↔ (4 ≤ length [1 / 2; 1 / 4]%R)%nat).
Proof.
  apply (prior_transform_index_error example_store_exact 3%positive).
  exact example_store_exact_3.
Defined.

Lemma example_store_exact_run4 :
  (prior_transform 4%positive example_store_exact).1
  = Ok (fresh (dom example_store_exact)).
Proof.
  by rewrite (prior_transform_run example_store_exact 4%positive
                (1 / 2) (1 / 4) 1 0 [7] example_store_exact_4).
Qed.

(** An array of five entries. *)
Lemma prior_transform_keeps_length_example :
  ∃ out,
    (prior_transform 4%positive example_store_exact).2
      !! fresh (dom example_store_exact) = Some out ∧
    length out = length [1 / 2; 1 / 4; 1; 0; 7] ∧
    ∀ i, (3 ≤ i)%nat → out !! i = [1 / 2; 1 / 4; 1; 0; 7] !! i.
Proof.
  apply (prior_transform_keeps_length example_store_exact 4%positive).
  - exact example_store_exact_4.
  - exact example_store_exact_run4.
Defined.

Lemma example_store_pair_1 :
  example_store_pair !! 1%positive = Some example_cube.
Proof. done. Qed.

Lemma example_store_pair_2 :
  example_store_pair !! 2%positive = Some [Fin 1; Fin 1; Fin 1; Fin 1].
Proof. done. Qed.

Lemma example_params_zero_1 :
  example_params_zero !! 1%positive = Some [Fin 0; Fin 1; Fin 0; Fin 0].
Proof. done. Qed.

(** Two calls on the first array of the example store. *)
Lemma prior_transform_results_apart_example :
  ∃ p1 p2 h2,
    p1 ≠ p2 ∧ p1 ≠ 1%positive ∧ p2 ≠ 1%positive ∧
    (setitem p1 0 7 h2).2 !! p2 = h2 !! p2 ∧
    (setitem p1 0 7 h2).2 !! 1%positive = Some [1 / 2; 1 / 4; 1; 0].
Proof.
  pose proof (prior_transform_run example_store_exact 1%positive
                (1 / 2) (1 / 4) 1 0 [] example_store_exact_1) as H1.
  match type of H1 with _ = (Ok ?p, ?h) =>
    assert (Hc : h !! 1%positive = Some [1 / 2; 1 / 4; 1; 0])
  end.
  { rewrite lookup_insert_ne; [exact example_store_exact_1 |].
    by eapply fresh_not_alive, example_store_exact_1. }
  pose proof (prior_transform_run _ 1%positive (1 / 2) (1 / 4) 1 0 [] Hc)
    as H2.
  do 3 eexists.
  exact (prior_transform_results_apart example_store_exact 1%positive
           _ _ _ _ _ 0%nat 7 example_store_exact_1 H1 H2).
Defined.

(** Four parameters and two observations. *)
Lemma log_likelihood_value_error_example :
  let fits :=
    length [1; 2; 3; 0]%R = 4%nat ∧
    (length example_t_exact = length example_y_exact
     ∨ length example_t_exact = 1%nat ∨ length example_y_exact = 1%nat) in
  ((∃ L, (log_likelihood example_t_exact example_y_exact 1%positive
            example_params_exact).1 = Ok L) ↔ fits) ∧
  ((log_likelihood example_t_exact example_y_exact 1%positive
      example_params_exact).1 = Raise ValueError ↔ ¬ fits).
Proof.
  apply (log_likelihood_value_error example_t_exact example_y_exact
           example_params_exact 1%positive).
  exact example_params_exact_1.
Defined.

Lemma log_likelihood_nonpositive_example :
  ∃ L, log_likelihood example_t_exact example_y_exact 1%positive
         example_params_exact = (Ok L, example_params_exact) ∧
       L <= 0 ∧
       (L = 0 ↔ Forall2 (λ ti yi, sine_model ti 1 2 3 0 = yi)
                  example_t_exact example_y_exact).
Proof.
  apply (log_likelihood_nonpositive example_t_exact example_y_exact
           example_params_exact 1%positive 1 2 3 0).
  - exact example_params_exact_1.
  - reflexivity.
Defined.

(** The two observations of the example, one at a time and together. *)
Lemma log_likelihood_additive_example :
  ∃ L1 L2,
    log_likelihood [0] [1] 1%positive example_params_exact
      = (Ok L1, example_params_exact) ∧
    log_likelihood [1] [2] 1%positive example_params_exact
      = (Ok L2, example_params_exact) ∧
    log_likelihood ([0] ++ [1]) ([1] ++ [2]) 1%positive example_params_exact
      = (Ok (L1 + L2), example_params_exact).
Proof.
  apply (log_likelihood_additive [0] [1] [1] [2]
           example_params_exact 1%positive 1 2 3 0).
  - exact example_params_exact_1.
  - reflexivity.
  - reflexivity.
Defined.

(** The two observations of the example in the other order. *)
Lemma log_likelihood_order_example :
  log_likelihood [0; 1] [1; 2] 1%positive example_params_exact
  = log_likelihood [1; 0] [2; 1] 1%positive example_params_exact.
Proof.
  apply (log_likelihood_order [0; 1] [1; 2] [1; 0] [2; 1]
           example_params_exact 1%positive 1 2 3 0).
  - exact example_params_exact_1.
  - reflexivity.
  - reflexivity.
  - apply perm_swap.
Defined.

(** The ends 0 and 1 of the wrapped coordinate. *)
Lemma likelihood_wraps_example :
  ((prior_transform 1%positive
    ≫= log_likelihood example_t_exact example_y_exact) example_store_exact).1
  = ((prior_transform 2%positive
      ≫= log_likelihood example_t_exact example_y_exact) example_store_exact).1.
Proof.
  apply (likelihood_wraps example_t_exact example_y_exact example_store_exact
           1%positive 2%positive (1 / 2) (1 / 4) 1 0).
  - exact example_store_exact_1.
  - exact example_store_exact_2.
Defined.

(** Twice the first array of the example store. *)
Lemma prior_transform_injective_example :
  [1 / 2; 1 / 4; 1; 0] = [1 / 2; 1 / 4; 1; 0].
Proof.
  pose proof (prior_transform_run example_store_exact 1%positive
                (1 / 2) (1 / 4) 1 0 [] example_store_exact_1) as H1.
  exact (prior_transform_injective example_store_exact 1%positive 1%positive
           _ _ _ _ _ _ _ example_store_exact_1 example_store_exact_1
           H1 (lookup_insert_eq _ _ _) H1 (lookup_insert_eq _ _ _)).
Defined.

(** The ranges on the example cube, under exact rounding. *)
Lemma prior_ranges_example :
  ∃ p h' B A P t0,
    @prior_transform float64 (float64_arith exact) 1%positive example_store
      = (Ok p, h') ∧
    h' !! p = Some [B; A; P; t0] ∧
    fle (pack exact (- 10)) B ∧ fle B (pack exact 10) ∧
    fle (pack exact (1 / 100)) A ∧ fle A (pack exact 100) ∧
    (∃ a, A = Fin a ∧ 0 < a) ∧
    t0 = Fin 0.
Proof.
  apply (prior_ranges exact example_store 1%positive
           (Fin (1 / 2)) (Fin (1 / 4)) (Fin 1) (Fin 0)).
  - exact example_store_cube.
  - exact example_unit_cube.
Defined.

Lemma example_corner_cube : unit_cube [Fin 1; Fin 1; Fin 1; Fin 1].
Proof. split; [reflexivity | solve_all_between]. Qed.

Lemma example_cube_below_corner :
  Forall2 fle example_cube [Fin 1; Fin 1; Fin 1; Fin 1].
Proof.
  repeat (apply Forall2_cons_2; [apply fle_intro; lra |]). constructor.
Qed.

(** The example cube and the corner (1, 1, 1, 1), under exact rounding. *)
Lemma prior_transform_monotone_example :
  ∃ p h1 out p' h1' out',
    @prior_transform float64 (float64_arith exact) 1%positive
      example_store_pair = (Ok p, h1) ∧
    h1 !! p = Some out ∧
    @prior_transform float64 (float64_arith exact) 2%positive
      example_store_pair = (Ok p', h1') ∧
    h1' !! p' = Some out' ∧
    Forall2 fle out out'.
Proof.
  apply (prior_transform_monotone exact example_store_pair
           1%positive 2%positive example_cube [Fin 1; Fin 1; Fin 1; Fin 1]).
  - exact example_store_pair_1.
  - exact example_store_pair_2.
  - exact example_unit_cube.
  - exact example_corner_cube.
  - exact example_cube_below_corner.
Defined.

(** A period of zero on the example data, under exact rounding. *)
Lemma zero_period_gives_nan_example :
  @log_likelihood float64 (float64_arith exact) example_t example_y
    1%positive example_params_zero
  = (Ok NaN, example_params_zero).
Proof.
  apply (zero_period_gives_nan exact example_t example_y example_params_zero
           1%positive (Fin 0) (Fin 1) (Fin 0)).
  - exact example_params_zero_1.
  - exists 0. split; [done |]. pose proof (MAX_pos_bound 0 ltac:(done)). lra.
  - discriminate.
  - reflexivity.
  - repeat first [apply List.Forall_nil | apply List.Forall_cons; [by eexists |]].
Defined.

(** The bounds on the example data, under exact rounding. *)
Lemma log_likelihood_of_prior_transform_bounds_example :
  ∃ L,
    ((@prior_transform float64 (float64_arith exact) 1%positive
      ≫= @log_likelihood float64 (float64_arith exact) example_t example_y)
       example_store).1 = Ok (Fin L) ∧
    - (INR n_data * ((110 + IZR 1) * (110 + IZR 1))) <= L <= 0.
Proof.
  apply (log_likelihood_of_prior_transform_bounds exact 1 example_t example_y
           example_store 1%positive example_cube).
  - lia.
  - by vm_compute.
  - exact example_observations.
  - exact example_store_cube.
  - exact example_unit_cube.
Defined.
